(** * French morphology and elision engine (src/constants.ts)

    A shallow embedding of the word-form generator, the verb conjugator,
    the slot-level elision scan and the string-level elision pass, with
    the properties the specification states about them.

    Strings are JavaScript strings: finite sequences of UTF-16 code
    units.  A code unit is an [N]; [slice], [endsWith], [startsWith] and
    [charAt] count code units, as the source's calls do. *)

From Stdlib Require Import NArith ZArith List Ascii String Lia Bool.
From Stdlib Require Import DecimalString Sorted.
From stdpp Require Import base decidable option list gmap.

Local Open Scope N_scope.
Local Open Scope list_scope.

(** ** JavaScript strings *)

Definition jsstring : Type := list N.

(** Literals are written as Rocq strings (UTF-8 bytes in this file) and
    decoded to UTF-16 code units: [emitCodePoint] yields one unit for the
    Basic Multilingual Plane and a surrogate pair above it. *)
Definition emitCodePoint (cp : N) : jsstring :=
  if cp <? 65536 then [cp]
  else [55296 + (cp - 65536) / 1024; 56320 + (cp - 65536) mod 1024].

Fixpoint decodeUtf8 (acc : N) (more : nat) (s : string) : jsstring :=
  match s with
  | EmptyString => []
  | String a r =>
      let b := N_of_ascii a in
      match more with
      | O =>
          if b <? 128 then b :: decodeUtf8 0 0%nat r
          else if b <? 224 then decodeUtf8 (b mod 32) 1%nat r
          else if b <? 240 then decodeUtf8 (b mod 16) 2%nat r
          else decodeUtf8 (b mod 8) 3%nat r
      | S O => emitCodePoint (acc * 64 + b mod 64) ++ decodeUtf8 0 0%nat r
      | S k => decodeUtf8 (acc * 64 + b mod 64) k r
      end
  end.

Definition js (s : string) : jsstring := decodeUtf8 0 0%nat s.

(** [s.slice(0, -k)]: the end index is [max (length - k) 0]. *)
Definition slice0 (s : jsstring) (k : nat) : jsstring :=
  take (length s - k) s.

(** [s.endsWith(suf)]: false when [suf] is longer than [s]. *)
Definition endsWith (s suf : jsstring) : bool :=
  (length suf <=? length s)%nat
  && bool_decide (drop (length s - length suf) s = suf).

(** [s.startsWith(p)]. *)
Definition startsWith (s p : jsstring) : bool :=
  bool_decide (take (length p) s = p).

(** [s.charAt(i)]: the one-unit string at [i], or the empty string. *)
Definition charAt (s : jsstring) (i : nat) : jsstring :=
  take 1 (drop i s).

(** [arr.includes(x)] on an array of strings. *)
Definition includes (arr : list jsstring) (x : jsstring) : bool :=
  bool_decide (x ∈ arr).

(** [s.toLowerCase()].  The mapping is the ECMAScript one on U+0000 to
    U+00FF (Basic Latin and Latin-1 Supplement, which hold every letter
    of the lexical tables): A-Z and the accented capitals U+00C0-U+00DE
    other than the multiplication sign move up by 32.  Code units above
    U+00FF are left as they are. *)
Definition lowerUnit (c : N) : N :=
  if (65 <=? c) && (c <=? 90) then c + 32
  else if (192 <=? c) && (c <=? 222) && negb (c =? 215) then c + 32
  else c.

Definition toLowerCase (s : jsstring) : jsstring := map lowerUnit s.

(** [s.replace(pat, rep)] with a string pattern: the first occurrence
    only. *)
Fixpoint replaceFirst (pat rep s : jsstring) : jsstring :=
  if startsWith s pat then rep ++ drop (length pat) s
  else match s with
       | [] => []
       | c :: r => c :: replaceFirst pat rep r
       end.

(** [arr.join(sep)]. *)
Fixpoint join (sep : jsstring) (arr : list jsstring) : jsstring :=
  match arr with
  | [] => []
  | [x] => x
  | x :: r => x ++ sep ++ join sep r
  end.

(** ** Data model (src/types.ts) *)

Inductive PartOfSpeech : Type :=
  | SUBJECT | VERB | VERB_AUX | VERB_INF | VERB_PP | ARTICLE | POSSESSIVE
  | NOUN | ADJECTIVE | PREPOSITION | ADVERB | OBJECT | CONNECTOR | NEGATION.

#[global] Instance PartOfSpeech_eq_dec : EqDecision PartOfSpeech.
Proof. solve_decision. Defined.

(** The enum's string values, as template literals print them. *)
Definition posName (p : PartOfSpeech) : jsstring :=
  match p with
  | SUBJECT => js "Subject"
  | VERB => js "Verb"
  | VERB_AUX => js "Auxiliary"
  | VERB_INF => js "Infinitive"
  | VERB_PP => js "Past Participle"
  | ARTICLE => js "Article"
  | POSSESSIVE => js "Possessive"
  | NOUN => js "Noun"
  | ADJECTIVE => js "Adjective"
  | PREPOSITION => js "Preposition"
  | ADVERB => js "Adverb"
  | OBJECT => js "Object"
  | CONNECTOR => js "Connector"
  | NEGATION => js "Negation"
  end.

(** [interface Word]; [tags] is an optional property. *)
Record Word : Type := mkWord {
  w_id : jsstring;
  w_text : jsstring;
  w_type : PartOfSpeech;
  w_translation : jsstring;
  w_tags : option (list jsstring)
}.

(** [interface SentenceSlot]; [value] is [Word | null], [fixed] is an
    optional property. *)
Record SentenceSlot : Type := mkSlot {
  s_id : jsstring;
  s_type : PartOfSpeech;
  s_value : option Word;
  s_placeholder : jsstring;
  s_fixed : option bool
}.

(** The arguments ['m' | 'f'] and ['s' | 'pl'] of [generateVariations]. *)
Inductive Gender : Type := G_m | G_f.
Inductive Number : Type := N_s | N_pl.

(** The result of [getVerbForms]. *)
Record VerbForms : Type := mkVerbForms {
  inf : Word;
  pp : option Word;
  conjugations : list Word
}.

(** ** Word creation and the lexical tables

    [createWord] draws a random identifier suffix.  The suffixes come
    from an oracle: [random k] is what the [k]-th evaluation of
    [Math.random().toString(36).substr(2, 9)] returns.  Code that creates
    words threads the number of draws made so far. *)

Definition Rand (A : Type) : Type := nat -> A * nat.

Definition ret {A} (a : A) : Rand A := fun n => (a, n).

Definition bind {A B} (c : Rand A) (k : A -> Rand B) : Rand B :=
  fun n => let (a, n') := c n in k a n'.

Notation "x <- c ;; k" := (bind c (fun x => k))
  (at level 100, c at next level, right associativity).

(** An array literal of word-creating calls, evaluated left to right. *)
Fixpoint sequence {A} (cs : list (Rand A)) : Rand (list A) :=
  match cs with
  | [] => ret []
  | c :: r => a <- c ;; l <- sequence r ;; ret (a :: l)
  end.

Section Lexicon.

Variable random : nat -> jsstring.

Definition createWord (text : jsstring) (type : PartOfSpeech)
    (translation : jsstring) (tags : list jsstring) : Rand Word :=
  fun n =>
    ({| w_id := text ++ js "-" ++ posName type ++ js "-" ++ random n;
        w_text := text;
        w_type := type;
        w_translation := translation;
        w_tags := Some tags |}, S n).

Definition generateErVerbs (root translationBase : jsstring)
    : Rand (list Word) :=
  let stem := slice0 root 2 in
  let nousForm :=
    if endsWith root (js "ger") then stem ++ js "eons"
    else if endsWith root (js "cer") then slice0 stem 1 ++ js "çons"
    else stem ++ js "ons" in
  let isYer := endsWith root (js "yer") in
  let singularStem := if isYer then slice0 stem 1 ++ js "i" else stem in
  sequence [
    createWord (singularStem ++ js "e") VERB
      (translationBase ++ js " (Je/Il)") [js "Je"; js "Il"; js "Elle"];
    createWord (singularStem ++ js "es") VERB
      (translationBase ++ js " (Tu)") [js "Tu"];
    createWord nousForm VERB
      (translationBase ++ js " (Nous)") [js "Nous"];
    createWord (stem ++ js "ez") VERB
      (translationBase ++ js " (Vous)") [js "Vous"];
    createWord (singularStem ++ js "ent") VERB
      (translationBase ++ js " (Ils/Elles)") [js "Ils"; js "Elles"]
  ].

Definition NEGATIONS_init : Rand (list Word) := sequence [
  createWord (js "ne") NEGATION (js "not (part 1)") [];
  createWord (js "pas") NEGATION (js "not (part 2)") [];
  createWord (js "jamais") NEGATION (js "never") [];
  createWord (js "plus") NEGATION (js "anymore") [];
  createWord (js "rien") NEGATION (js "nothing") []
].

Definition CONNECTORS_init : Rand (list Word) := sequence [
  createWord (js "et") CONNECTOR (js "and") [];
  createWord (js "mais") CONNECTOR (js "but") [];
  createWord (js "ou") CONNECTOR (js "or") [];
  createWord (js "car") CONNECTOR (js "because (formal)") [];
  createWord (js "parce que") CONNECTOR (js "because") [];
  createWord (js "à cause de") CONNECTOR (js "because of (negative)") [];
  createWord (js "grâce à") CONNECTOR (js "thanks to (positive)") [];
  createWord (js "donc") CONNECTOR (js "therefore/so") [];
  createWord (js "alors") CONNECTOR (js "then/so") [];
  createWord (js "puisque") CONNECTOR (js "since/as") [];
  createWord (js "si") CONNECTOR (js "if") [];
  createWord (js "quand") CONNECTOR (js "when") [];
  createWord (js "pendant que") CONNECTOR (js "while") []
].

Definition PREPOSITIONS_init : Rand (list Word) := sequence [
  createWord (js "à") PREPOSITION (js "to/at") [];
  createWord (js "de") PREPOSITION (js "of/from/about") [];
  createWord (js "avec") PREPOSITION (js "with") [];
  createWord (js "pour") PREPOSITION (js "for") [];
  createWord (js "dans") PREPOSITION (js "in") [];
  createWord (js "sur") PREPOSITION (js "on") [];
  createWord (js "sous") PREPOSITION (js "under") [];
  createWord (js "chez") PREPOSITION (js "at place of") [];
  createWord (js "sans") PREPOSITION (js "without") [];
  createWord (js "avant") PREPOSITION (js "before") [];
  createWord (js "après") PREPOSITION (js "after") [];
  createWord (js "pendant") PREPOSITION (js "during") []
].

Definition POSSESSIVES_init : Rand (list Word) := sequence [
  createWord (js "mon") POSSESSIVE (js "my (m)") [];
  createWord (js "ma") POSSESSIVE (js "my (f)") [];
  createWord (js "mes") POSSESSIVE (js "my (pl)") [];
  createWord (js "ton") POSSESSIVE (js "your (m)") [];
  createWord (js "ta") POSSESSIVE (js "your (f)") [];
  createWord (js "tes") POSSESSIVE (js "your (pl)") [];
  createWord (js "son") POSSESSIVE (js "his/her (m)") [];
  createWord (js "sa") POSSESSIVE (js "his/her (f)") [];
  createWord (js "ses") POSSESSIVE (js "his/her (pl)") [];
  createWord (js "notre") POSSESSIVE (js "our") [];
  createWord (js "nos") POSSESSIVE (js "our (pl)") [];
  createWord (js "votre") POSSESSIVE (js "your (formal)") [];
  createWord (js "vos") POSSESSIVE (js "your (pl form)") [];
  createWord (js "leur") POSSESSIVE (js "their") [];
  createWord (js "leurs") POSSESSIVE (js "their (pl)") []
].

Definition ARTICLES_init : Rand (list Word) := sequence [
  createWord (js "le") ARTICLE (js "the (m)") [];
  createWord (js "la") ARTICLE (js "the (f)") [];
  createWord (js "l'") ARTICLE (js "the (vowel)") [];
  createWord (js "un") ARTICLE (js "a (m)") [];
  createWord (js "une") ARTICLE (js "a (f)") [];
  createWord (js "les") ARTICLE (js "the (pl)") [];
  createWord (js "des") ARTICLE (js "some") []
].

Definition SUBJECTS_init : Rand (list Word) := sequence [
  createWord (js "Je") SUBJECT (js "I") [];
  createWord (js "Tu") SUBJECT (js "You") [];
  createWord (js "Il") SUBJECT (js "He") [];
  createWord (js "Elle") SUBJECT (js "She") [];
  createWord (js "Nous") SUBJECT (js "We") [];
  createWord (js "Vous") SUBJECT (js "You (pl)") [];
  createWord (js "Ils") SUBJECT (js "They (m)") [];
  createWord (js "Elles") SUBJECT (js "They (f)") []
].

Definition AUX_ALLER_init : Rand (list Word) := sequence [
  createWord (js "aller") VERB_INF (js "to go (Aux)") [];
  createWord (js "vais") VERB_AUX (js "am going (Je)") [js "Je"];
  createWord (js "vas") VERB_AUX (js "are going (Tu)") [js "Tu"];
  createWord (js "va") VERB_AUX (js "is going (Il/Elle)") [js "Il"; js "Elle"];
  createWord (js "allons") VERB_AUX (js "are going (Nous)") [js "Nous"];
  createWord (js "allez") VERB_AUX (js "are going (Vous)") [js "Vous"];
  createWord (js "vont") VERB_AUX (js "are going (Ils/Elles)")
    [js "Ils"; js "Elles"];
  createWord (js "allé") VERB_PP (js "gone") []
].

Definition AUX_AVOIR_ETRE_init : Rand (list Word) := sequence [
  createWord (js "avoir") VERB_INF (js "to have (Aux)") [];
  createWord (js "être") VERB_INF (js "to be (Aux)") [];
  createWord (js "ai") VERB_AUX (js "have (Je)") [js "Je"];
  createWord (js "as") VERB_AUX (js "have (Tu)") [js "Tu"];
  createWord (js "a") VERB_AUX (js "has (Il/Elle)") [js "Il"; js "Elle"];
  createWord (js "avons") VERB_AUX (js "have (Nous)") [js "Nous"];
  createWord (js "avez") VERB_AUX (js "have (Vous)") [js "Vous"];
  createWord (js "ont") VERB_AUX (js "have (Ils/Elles)") [js "Ils"; js "Elles"];
  createWord (js "eu") VERB_PP (js "had") [];
  createWord (js "suis") VERB_AUX (js "am (Je)") [js "Je"];
  createWord (js "es") VERB_AUX (js "are (Tu)") [js "Tu"];
  createWord (js "est") VERB_AUX (js "is (Il/Elle)") [js "Il"; js "Elle"];
  createWord (js "sommes") VERB_AUX (js "are (Nous)") [js "Nous"];
  createWord (js "êtes") VERB_AUX (js "are (Vous)") [js "Vous"];
  createWord (js "sont") VERB_AUX (js "are (Ils/Elles)") [js "Ils"; js "Elles"];
  createWord (js "été") VERB_PP (js "been") []
].

(** Module initialisation runs the table initialisers in source order,
    starting from the first draw; the topic pools come after the two
    auxiliary tables and none of the functions below reads them. *)
Definition moduleInit : Rand (list Word * list Word) :=
  _ <- NEGATIONS_init ;;
  _ <- CONNECTORS_init ;;
  _ <- PREPOSITIONS_init ;;
  _ <- POSSESSIVES_init ;;
  _ <- ARTICLES_init ;;
  _ <- SUBJECTS_init ;;
  aller <- AUX_ALLER_init ;;
  avoir_etre <- AUX_AVOIR_ETRE_init ;;
  ret (aller, avoir_etre).

Definition AUX_ALLER : list Word := fst (fst (moduleInit 0%nat)).
Definition AUX_AVOIR_ETRE : list Word := snd (fst (moduleInit 0%nat)).

(** [getVerbForms]: the three auxiliaries are compared with [===] on the
    word's text; [find(...) || null] is [List.find]. *)
Definition getVerbForms (rootVerb : Word) : Rand VerbForms :=
  if bool_decide (w_text rootVerb = js "avoir") then
    let pp := List.find (fun w => bool_decide (w_type w = VERB_PP)
                                  && bool_decide (w_text w = js "eu"))
                        AUX_AVOIR_ETRE in
    let avoirForms :=
      [js "ai"; js "as"; js "a"; js "avons"; js "avez"; js "ont"] in
    let conjugations :=
      List.filter (fun w => bool_decide (w_type w = VERB_AUX)
                            && includes avoirForms (w_text w))
                  AUX_AVOIR_ETRE in
    ret {| inf := rootVerb; pp := pp; conjugations := conjugations |}
  else if bool_decide (w_text rootVerb = js "être") then
    let pp := List.find (fun w => bool_decide (w_type w = VERB_PP)
                                  && bool_decide (w_text w = js "été"))
                        AUX_AVOIR_ETRE in
    let etreForms :=
      [js "suis"; js "es"; js "est"; js "sommes"; js "êtes"; js "sont"] in
    let conjugations :=
      List.filter (fun w => bool_decide (w_type w = VERB_AUX)
                            && includes etreForms (w_text w))
                  AUX_AVOIR_ETRE in
    ret {| inf := rootVerb; pp := pp; conjugations := conjugations |}
  else if bool_decide (w_text rootVerb = js "aller") then
    let pp := List.find (fun w => bool_decide (w_type w = VERB_PP)) AUX_ALLER in
    let conjugations :=
      List.filter (fun w => bool_decide (w_type w = VERB_AUX)) AUX_ALLER in
    ret {| inf := rootVerb; pp := pp; conjugations := conjugations |}
  else if endsWith (w_text rootVerb) (js "er")
          || endsWith (w_text rootVerb) (js "ir")
          || endsWith (w_text rootVerb) (js "re") then
    if endsWith (w_text rootVerb) (js "er") then
      conjugations <- generateErVerbs (w_text rootVerb)
                        (replaceFirst (js "to ") [] (w_translation rootVerb)) ;;
      let ppText := slice0 (w_text rootVerb) 2 ++ js "é" in
      pp <- createWord ppText VERB_PP (js "Past Participle") [] ;;
      ret {| inf := rootVerb; pp := Some pp; conjugations := conjugations |}
    else
      ret {| inf := rootVerb; pp := None; conjugations := [] |}
  else
    ret {| inf := rootVerb; pp := None; conjugations := [] |}.

End Lexicon.

(** ** Variation logic ([generateVariations]) *)

Record AdjForms : Type := mkAdjForms {
  adj_f : jsstring;
  adj_mpl : jsstring;
  adj_fpl : jsstring
}.

(** The object literal [irregularAdjectives], read as a finite map over
    its own keys (names inherited from [Object.prototype] are not French
    adjectives and are left out of the model). *)
Definition irregularAdjectives : gmap jsstring AdjForms :=
  list_to_map [
    (js "beau", mkAdjForms (js "belle") (js "beaux") (js "belles"));
    (js "nouveau", mkAdjForms (js "nouvelle") (js "nouveaux") (js "nouvelles"));
    (js "vieux", mkAdjForms (js "vieille") (js "vieux") (js "vieilles"));
    (js "frais", mkAdjForms (js "fraîche") (js "frais") (js "fraîches"));
    (js "blanc", mkAdjForms (js "blanche") (js "blancs") (js "blanches"));
    (js "heureux", mkAdjForms (js "heureuse") (js "heureux") (js "heureuses"));
    (js "délicieux",
      mkAdjForms (js "délicieuse") (js "délicieux") (js "délicieuses"));
    (js "dangereux",
      mkAdjForms (js "dangereuse") (js "dangereux") (js "dangereuses"))
  ].

Definition genderTag (gender : Gender) : jsstring :=
  match gender with G_f => js "feminine" | G_m => js "masculine" end.

Definition numberTag (number : Number) : jsstring :=
  match number with N_pl => js "plural" | N_s => js "singular" end.

(** [word.tags?.includes(t)]: falsy when the property is absent. *)
Definition tagsInclude (word : Word) (t : jsstring) : bool :=
  match w_tags word with
  | Some ts => includes ts t
  | None => false
  end.

Definition generateVariations (word : Word) (gender : Gender)
    (number : Number) : Word :=
  match w_type word with
  | NOUN =>
      let text := w_text word in
      let isFemTag :=
        tagsInclude word (js "f") || tagsInclude word (js "feminine") in
      let text :=
        match gender with
        | G_f =>
            if negb isFemTag then
              if bool_decide (text = js "chat") then js "chatte"
              else if bool_decide (text = js "chien") then js "chienne"
              else if bool_decide (text = js "sorcier") then js "sorcière"
              else if endsWith text (js "er") then slice0 text 2 ++ js "ère"
              else if endsWith text (js "f") then slice0 text 1 ++ js "ve"
              else if endsWith text (js "x") then slice0 text 1 ++ js "se"
              else if negb (endsWith text (js "e")) then text ++ js "e"
              else text
            else text
        | G_m => text
        end in
      let text :=
        match number with
        | N_pl =>
            if endsWith text (js "s") || endsWith text (js "x")
               || endsWith text (js "z") then text
            else if endsWith text (js "au") || endsWith text (js "eu")
            then text ++ js "x"
            else if endsWith text (js "al") then slice0 text 2 ++ js "aux"
            else text ++ js "s"
        | N_s => text
        end in
      {| w_id := w_id word;
         w_text := text;
         w_type := w_type word;
         w_translation := w_translation word;
         w_tags := Some [genderTag gender; numberTag number] |}
  | ADJECTIVE =>
      let text := w_text word in
      let text :=
        match irregularAdjectives !! w_text word with
        | Some forms =>
            match gender, number with
            | G_f, N_s => adj_f forms
            | G_m, N_pl => adj_mpl forms
            | G_f, N_pl => adj_fpl forms
            | G_m, N_s => text
            end
        | None =>
            let text :=
              match gender with
              | G_f => if negb (endsWith text (js "e")) then text ++ js "e"
                       else text
              | G_m => text
              end in
            match number with
            | N_pl =>
                if endsWith text (js "s") || endsWith text (js "x") then text
                else if endsWith text (js "au") then text ++ js "x"
                else text ++ js "s"
            | N_s => text
            end
        end in
      {| w_id := w_id word;
         w_text := text;
         w_type := w_type word;
         w_translation := w_translation word;
         w_tags := Some (default [] (w_tags word)
                         ++ [genderTag gender; numberTag number]) |}
  | _ => word
  end.

(** ** String-level elision ([applyFrenchElision])

    The two regular expressions carry the flags [g] and [i] and not [u]:
    [\b] and [\w] are ASCII, and a character matches a pattern character
    when both have the same canonical (single-unit upper-case) form. *)

(** [\w]: A-Z, a-z, 0-9 and the underscore. *)
Definition isWordChar (c : N) : bool :=
  ((48 <=? c) && (c <=? 57)) || ((65 <=? c) && (c <=? 90))
  || ((97 <=? c) && (c <=? 122)) || (c =? 95).

(** [\s]: ECMAScript white space and line terminators. *)
Definition isWhiteSpace (c : N) : bool :=
  ((9 <=? c) && (c <=? 13)) || (c =? 32) || (c =? 160) || (c =? 5760)
  || ((8192 <=? c) && (c <=? 8202)) || (c =? 8232) || (c =? 8233)
  || (c =? 8239) || (c =? 8287) || (c =? 12288) || (c =? 65279).

(** Canonicalize of the [i] flag without [u]: the upper-case form when it
    is a single unit and does not move a non-ASCII unit into ASCII.  On
    U+0000 to U+00FF: a-z and U+00E0-U+00FE other than the division sign
    move down by 32, U+00FF goes to U+0178 and the micro sign to U+039C;
    the sharp s has a two-letter upper case and stays.  Units above
    U+00FF are left as they are; none of them canonicalizes to a
    character of the two patterns. *)
Definition canonicalize (c : N) : N :=
  if (97 <=? c) && (c <=? 122) then c - 32
  else if (224 <=? c) && (c <=? 254) && negb (c =? 247) then c - 32
  else if c =? 255 then 376
  else if c =? 181 then 924
  else c.

(** [\b] at the position whose left neighbour is [prev] and whose right
    neighbour is the head of [s]. *)
Definition wordBoundary (prev : option N) (s : jsstring) : bool :=
  xorb (from_option isWordChar false prev)
       (from_option isWordChar false (head s)).

(** A literal under the [i] flag, matched at the head of [s]; the result
    is the text matched, in the input's case. *)
Definition literalCI (lit s : jsstring) : option jsstring :=
  if bool_decide (map canonicalize (take (length lit) s) = map canonicalize lit)
  then Some (take (length lit) s) else None.

(** A character class under the [i] flag, matched at the head of [s]. *)
Definition classCI (cls : jsstring) (s : jsstring) : option jsstring :=
  match s with
  | c :: _ =>
      if existsb (fun p => canonicalize c =? canonicalize p) cls
      then Some [c] else None
  | [] => None
  end.

(** [\s+] followed by the continuation [k]: greedy, giving white space
    back one unit at a time when the continuation fails.  The result is
    the number of white-space units consumed and what [k] matched. *)
Fixpoint wsPlus (k : jsstring -> option jsstring) (s : jsstring)
    : option (nat * jsstring) :=
  match s with
  | c :: r =>
      if isWhiteSpace c then
        match wsPlus k r with
        | Some (n, x) => Some (S n, x)
        | None => match k r with
                  | Some x => Some (1%nat, x)
                  | None => None
                  end
        end
      else None
  | [] => None
  end.

(** [str.replace(re, fn)] with a global regular expression whose matches
    are never empty.  [attempt prev s] tries the expression at the
    position in front of [s] and returns the length of the match and its
    replacement; after a match the scan resumes behind it. *)
Fixpoint replaceScan (attempt : option N -> jsstring -> option (nat * jsstring))
    (prev : option N) (skip : nat) (s : jsstring) : jsstring :=
  match s with
  | [] => []
  | c :: r =>
      match skip with
      | S k => replaceScan attempt (Some c) k r
      | O =>
          match attempt prev s with
          | Some (len, rep) => rep ++ replaceScan attempt (Some c) (len - 1) r
          | None => c :: replaceScan attempt (Some c) 0 r
          end
      end
  end.

Definition replaceAll (attempt : option N -> jsstring -> option (nat * jsstring))
    (s : jsstring) : jsstring :=
  replaceScan attempt None 0 s.

(** The alternation [(je|me|te|se|le|la|de|ne|que|ce)]. *)
Definition regexTriggers : list jsstring :=
  [js "je"; js "me"; js "te"; js "se"; js "le"; js "la"; js "de"; js "ne";
   js "que"; js "ce"].

(** The class [[aeiouyéàèùâêîôûh]]. *)
Definition regexVowels : jsstring := js "aeiouyéàèùâêîôûh".

(** The callback of the first [replace]. *)
Definition elideCallback (matched p1 p2 : jsstring) : jsstring :=
  let word := toLowerCase p1 in
  let nextChar := toLowerCase p2 in
  if bool_decide (word = js "ce") then
    if bool_decide (nextChar = js "e") || bool_decide (nextChar = js "é")
    then slice0 p1 1 ++ js "'" ++ p2
    else matched
  else slice0 p1 1 ++ js "'" ++ p2.

(** The alternatives are tried in order and the first one whose
    continuation also matches wins. *)
Fixpoint tryTriggers (ts : list jsstring) (s : jsstring)
    : option (nat * jsstring) :=
  match ts with
  | [] => None
  | t :: ts' =>
      match literalCI t s with
      | Some p1 =>
          match wsPlus (classCI regexVowels) (drop (length p1) s) with
          | Some (n, p2) =>
              let len := (length p1 + n + length p2)%nat in
              Some (len, elideCallback (take len s) p1 p2)
          | None => tryTriggers ts' s
          end
      | None => tryTriggers ts' s
      end
  end.

(** [/\b(je|me|te|se|le|la|de|ne|que|ce)\s+([aeiouyéàèùâêîôûh])/gi] *)
Definition elisionRegex (prev : option N) (s : jsstring)
    : option (nat * jsstring) :=
  if wordBoundary prev s then tryTriggers regexTriggers s else None.

(** [/\b(si)\s+(il)/gi], with its callback [s' + p2]. *)
Definition siIlRegex (prev : option N) (s : jsstring)
    : option (nat * jsstring) :=
  if wordBoundary prev s then
    match literalCI (js "si") s with
    | Some p1 =>
        match wsPlus (literalCI (js "il")) (drop (length p1) s) with
        | Some (n, p2) =>
            Some ((length p1 + n + length p2)%nat, js "s'" ++ p2)
        | None => None
        end
    | None => None
    end
  else None.

Definition applyFrenchElision (sentence : jsstring) : jsstring :=
  replaceAll siIlRegex (replaceAll elisionRegex sentence).

(** ** Slot-level elision ([shouldElide], [findElisionCandidate]) *)

Definition elisionTriggers : list jsstring :=
  [js "je"; js "me"; js "te"; js "se"; js "le"; js "la"; js "de"; js "ne";
   js "que"; js "jusque"; js "si"; js "ce"].

Definition vowels : list jsstring :=
  [js "a"; js "e"; js "i"; js "o"; js "u"; js "y"; js "h"; js "é"; js "è";
   js "ê"].

Definition shouldElide (s1 s2 : SentenceSlot) : bool :=
  match s_value s1, s_value s2 with
  | Some v1, Some v2 =>
      let w1 := toLowerCase (w_text v1) in
      let w2 := toLowerCase (w_text v2) in
      if negb (includes elisionTriggers w1) then false
      else if negb (includes vowels (charAt w2 0)) then false
      else if bool_decide (w1 = js "si") && negb (startsWith w2 (js "il"))
      then false
      else if bool_decide (w1 = js "ce") && negb (startsWith w2 (js "est"))
              && negb (startsWith w2 (js "ét"))
      then false
      else true
  | _, _ => false
  end.

Record ElisionCandidate : Type := mkCandidate {
  index : nat;
  mergedSlot : SentenceSlot
}.

(** The merge built in the loop body for the pair [(current, next)]; the
    two values are present whenever [shouldElide] holds. *)
Definition mergeSlots (current next : SentenceSlot) : option SentenceSlot :=
  match s_value current, s_value next with
  | Some cv, Some nv =>
      let w1 := w_text cv in
      let w2 := w_text nv in
      let prefix := slice0 w1 1 in
      let prefix :=
        if bool_decide (toLowerCase w1 = js "si") then slice0 w1 1
        else prefix in
      let mergedText := prefix ++ js "'" ++ w2 in
      let mergedWord :=
        {| w_id := w_id cv ++ js "+" ++ w_id nv;
           w_text := mergedText;
           w_type := w_type nv;
           w_translation := w_translation cv ++ js " + " ++ w_translation nv;
           w_tags := Some (default [] (w_tags cv) ++ default [] (w_tags nv)) |} in
      Some {| s_id := s_id current;
              s_type := s_type next;
              s_value := Some mergedWord;
              s_placeholder := s_placeholder next;
              s_fixed := None |}
  | _, _ => None
  end.

(** The loop [for (let i = 0; i < slots.length - 1; i++)], from index
    [i] on the slots not yet examined. *)
Fixpoint findElisionFrom (i : nat) (slots : list SentenceSlot)
    : option ElisionCandidate :=
  match slots with
  | current :: rest =>
      match rest with
      | next :: _ =>
          if shouldElide current next then
            match mergeSlots current next with
            | Some merged => Some {| index := i; mergedSlot := merged |}
            | None => None
            end
          else findElisionFrom (S i) rest
      | [] => None
      end
  | [] => None
  end.

Definition findElisionCandidate (slots : list SentenceSlot)
    : option ElisionCandidate :=
  findElisionFrom 0 slots.

(** ** The caller's merge loop and sentence assembly (GameScreen)

    The effect that follows every change of the slots takes the
    candidate and splices it in, [splice(index, 2, mergedSlot)], until
    no candidate is left; the delay between two steps is not modelled. *)

Definition splice2 (slots : list SentenceSlot) (i : nat) (x : SentenceSlot)
    : list SentenceSlot :=
  take i slots ++ x :: drop (i + 2) slots.

Definition mergeStep (slots : list SentenceSlot) : option (list SentenceSlot) :=
  match findElisionCandidate slots with
  | Some c => Some (splice2 slots (index c) (mergedSlot c))
  | None => None
  end.

Fixpoint mergeLoop (fuel : nat) (slots : list SentenceSlot)
    : list SentenceSlot :=
  match fuel with
  | O => slots
  | S fuel' =>
      match mergeStep slots with
      | Some slots' => mergeLoop fuel' slots'
      | None => slots
      end
  end.

(** Every merge removes a slot, so the number of slots is fuel enough. *)
Definition mergeToFixedPoint (slots : list SentenceSlot) : list SentenceSlot :=
  mergeLoop (length slots) slots.

(** [slots.map(s => s.value?.text).join(' ')]: [join] prints [undefined]
    as the empty string. *)
Definition slotTexts (slots : list SentenceSlot) : jsstring :=
  join (js " ") (map (fun s => from_option w_text [] (s_value s)) slots).

(** The string [handleCheckSentence] submits. *)
Definition sentenceStr (slots : list SentenceSlot) : jsstring :=
  applyFrenchElision (slotTexts slots).

(** ** The end of the merge animation (GameScreen)

    The timeout callback of the merge effect: the scan is run again on
    the slots of that moment and the candidate found before the delay
    is spliced in when the new candidate sits at the same index. *)
Definition finishMerge (candidate : ElisionCandidate)
    (prevSlots : list SentenceSlot) : list SentenceSlot :=
  match findElisionCandidate prevSlots with
  | Some freshCandidate =>
      if bool_decide (index freshCandidate = index candidate)
      then splice2 prevSlots (index candidate) (mergedSlot candidate)
      else prevSlots
  | None => prevSlots
  end.

(** ** Custom vocabulary (GameScreen, initialisation)

    The word pack of a custom topic, as its schema in the service
    declares it, and the words the game screen creates from it: the
    nouns with their gender as only tag, the adjectives, and the verbs
    with their text in lower case and "to " in front of their
    translation. *)
Record PackNoun : Type := mkPackNoun {
  pn_text : jsstring;
  pn_translation : jsstring;
  pn_gender : jsstring
}.

Record PackEntry : Type := mkPackEntry {
  pe_text : jsstring;
  pe_translation : jsstring
}.

Record WordPack : Type := mkWordPack {
  pack_nouns : list PackNoun;
  pack_adjectives : list PackEntry;
  pack_verbs : list PackEntry
}.

Section CustomWords.

Variable random : nat -> jsstring.

Definition packNounWord (n : PackNoun) : Rand Word :=
  createWord random (pn_text n) NOUN (pn_translation n) [pn_gender n].

Definition packAdjectiveWord (a : PackEntry) : Rand Word :=
  createWord random (pe_text a) ADJECTIVE (pe_translation a) [].

Definition packVerbWord (v : PackEntry) : Rand Word :=
  let text := toLowerCase (pe_text v) in
  createWord random text VERB_INF (js "to " ++ pe_translation v) [].

Definition customWordsOf (pack : WordPack) : Rand (list Word) :=
  nouns <- sequence (map packNounWord (pack_nouns pack)) ;;
  adjs <- sequence (map packAdjectiveWord (pack_adjectives pack)) ;;
  verbs <- sequence (map packVerbWord (pack_verbs pack)) ;;
  ret (nouns ++ adjs ++ verbs).

End CustomWords.

(** ** The rest of src/constants.ts used by the game screen *)

(** [getStarterSentence]: the board starts blank. *)
Definition getStarterSentence : list PartOfSpeech := [].

(** ** Game screen state (GameScreen)

    Counters and the clock are JavaScript numbers holding integers; they
    are modelled in [Z]. *)

Inductive GameMode : Type := STANDARD | BLITZ | ZEN.

#[global] Instance GameMode_eq_dec : EqDecision GameMode.
Proof. solve_decision. Defined.

Record GameState : Type := mkGameState {
  score : Z;
  sentencesCompleted : Z;
  timeLeft : Z;
  isPlaying : bool;
  isGameOver : bool
}.

Inductive FeedbackType : Type :=
  | perfect | minor_error | grammar_fail | nonsense.

(** [interface ValidationResult]; [followUpQuestion] is optional. *)
Record ValidationResult : Type := mkValidationResult {
  isValid : bool;
  correction : jsstring;
  explanation : jsstring;
  v_translation : jsstring;
  feedbackType : FeedbackType;
  followUpQuestion : option jsstring
}.

(** The state of the screen that its handlers read and write.  The
    loading flags, the inspiration text, the sticky flag and the refs
    only drive the display and are left out. *)
Record Screen : Type := mkScreen {
  gameState : GameState;
  slots : list SentenceSlot;
  activeSlotId : option jsstring;
  isAddingNew : bool;
  pickerCategory : PartOfSpeech;
  customizingWord : option Word;
  customGender : Gender;
  customNumber : Number;
  validation : option ValidationResult;
  mergingIndex : option nat;
  pendingChallenge : option jsstring;
  activeChallenge : option jsstring;
  questionHistory : list jsstring;
  draggedSlotIndex : option nat
}.

(** [x |> f] queues the update [f] behind those of [x]. *)
Notation "x |> f" := (f x) (at level 68, left associativity, only parsing).

(** The state setters.  A handler reads the state of the render it
    belongs to and queues its updates; each handler below sets a field
    at most once, so the updates are applied one after the other to
    the state read. *)
Definition setGameState (f : GameState -> GameState) (st : Screen) : Screen :=
  let '(mkScreen g sl a ad pc cw cg cn v m pe ac qh d) := st in
  mkScreen (f g) sl a ad pc cw cg cn v m pe ac qh d.

Definition setSlots (f : list SentenceSlot -> list SentenceSlot)
    (st : Screen) : Screen :=
  let '(mkScreen g sl a ad pc cw cg cn v m pe ac qh d) := st in
  mkScreen g (f sl) a ad pc cw cg cn v m pe ac qh d.

Definition setActiveSlotId (x : option jsstring) (st : Screen) : Screen :=
  let '(mkScreen g sl a ad pc cw cg cn v m pe ac qh d) := st in
  mkScreen g sl x ad pc cw cg cn v m pe ac qh d.

Definition setIsAddingNew (x : bool) (st : Screen) : Screen :=
  let '(mkScreen g sl a ad pc cw cg cn v m pe ac qh d) := st in
  mkScreen g sl a x pc cw cg cn v m pe ac qh d.

Definition setPickerCategory (x : PartOfSpeech) (st : Screen) : Screen :=
  let '(mkScreen g sl a ad pc cw cg cn v m pe ac qh d) := st in
  mkScreen g sl a ad x cw cg cn v m pe ac qh d.

Definition setCustomizingWord (x : option Word) (st : Screen) : Screen :=
  let '(mkScreen g sl a ad pc cw cg cn v m pe ac qh d) := st in
  mkScreen g sl a ad pc x cg cn v m pe ac qh d.

Definition setCustomGender (x : Gender) (st : Screen) : Screen :=
  let '(mkScreen g sl a ad pc cw cg cn v m pe ac qh d) := st in
  mkScreen g sl a ad pc cw x cn v m pe ac qh d.

Definition setCustomNumber (x : Number) (st : Screen) : Screen :=
  let '(mkScreen g sl a ad pc cw cg cn v m pe ac qh d) := st in
  mkScreen g sl a ad pc cw cg x v m pe ac qh d.

Definition setValidation (x : option ValidationResult) (st : Screen)
    : Screen :=
  let '(mkScreen g sl a ad pc cw cg cn v m pe ac qh d) := st in
  mkScreen g sl a ad pc cw cg cn x m pe ac qh d.

Definition setMergingIndex (x : option nat) (st : Screen) : Screen :=
  let '(mkScreen g sl a ad pc cw cg cn v m pe ac qh d) := st in
  mkScreen g sl a ad pc cw cg cn v x pe ac qh d.

Definition setPendingChallenge (x : option jsstring) (st : Screen) : Screen :=
  let '(mkScreen g sl a ad pc cw cg cn v m pe ac qh d) := st in
  mkScreen g sl a ad pc cw cg cn v m x ac qh d.

Definition setActiveChallenge (x : option jsstring) (st : Screen) : Screen :=
  let '(mkScreen g sl a ad pc cw cg cn v m pe ac qh d) := st in
  mkScreen g sl a ad pc cw cg cn v m pe x qh d.

Definition setQuestionHistory (f : list jsstring -> list jsstring)
    (st : Screen) : Screen :=
  let '(mkScreen g sl a ad pc cw cg cn v m pe ac qh d) := st in
  mkScreen g sl a ad pc cw cg cn v m pe ac (f qh) d.

Definition setDraggedSlotIndex (x : option nat) (st : Screen) : Screen :=
  let '(mkScreen g sl a ad pc cw cg cn v m pe ac qh d) := st in
  mkScreen g sl a ad pc cw cg cn v m pe ac qh x.

(** The [useState] initial values. *)
Definition initialScreen : Screen :=
  {| gameState := {| score := 0; sentencesCompleted := 0; timeLeft := 60;
                     isPlaying := true; isGameOver := false |};
     slots := [];
     activeSlotId := None;
     isAddingNew := false;
     pickerCategory := VERB;
     customizingWord := None;
     customGender := G_m;
     customNumber := N_s;
     validation := None;
     mergingIndex := None;
     pendingChallenge := None;
     activeChallenge := None;
     questionHistory := [];
     draggedSlotIndex := None |}.

(** A [string | null] used as a condition: null and the empty string
    are falsy. *)
Definition truthy (s : option jsstring) : bool :=
  match s with
  | Some (_ :: _) => true
  | _ => false
  end.

(** [activeSlotId === id]. *)
Definition isActive (st : Screen) (id : jsstring) : bool :=
  bool_decide (activeSlotId st = Some id).

(** [validation || mergingIndex !== null]: the board is locked. *)
Definition locked (st : Screen) : bool :=
  bool_decide (is_Some (validation st))
  || bool_decide (is_Some (mergingIndex st)).

(** A number printed in a template literal. *)
Definition decimal (n : nat) : jsstring :=
  js (NilZero.string_of_uint (Nat.to_uint n)).

Section GameScreen.

(** The settings' mode, the word pool of the render, and the clock and
    random source: [random k] and [randomFloor k n] are the identifier
    suffix and [Math.floor(Math.random() * n)] of the [k]-th draw,
    [dateNow i] is [Date.now()] as printed for the [i]-th starter
    slot. *)
Variable mode : GameMode.
Variable wordPool : list Word.
Variable random : nat -> jsstring.
Variable randomFloor : nat -> nat -> nat.
Variable dateNow : nat -> jsstring.

(** The slot [startNewRound] builds for the starter type at [index]. *)
Definition starterSlot (index : nat) (type : PartOfSpeech)
    : Rand SentenceSlot :=
  fun n =>
    let wordsOfType :=
      List.filter (fun w => bool_decide (w_type w = type)) wordPool in
    let '(randomWord, n') :=
      if (0 <? length wordsOfType)%nat
      then (wordsOfType !! randomFloor n (length wordsOfType), S n)
      else let '(w, n') := createWord random (js "?") type (js "error") [] n in
           (Some w, n') in
    ({| s_id := js "slot-" ++ decimal index ++ js "-" ++ dateNow index;
        s_type := type;
        s_value := randomWord;
        s_placeholder := posName type;
        s_fixed := None |}, n').

Definition startNewRound (st : Screen) : Rand Screen :=
  newSlots <- sequence (imap starterSlot getStarterSentence) ;;
  ret (st |> setSlots (fun _ => newSlots)
          |> setValidation None
          |> setActiveSlotId None
          |> setIsAddingNew false
          |> setPickerCategory VERB
          |> setCustomizingWord None
          |> setMergingIndex None).

(** The merge effect, run after a render whose slots or merging index
    changed: it marks the candidate's index and starts the timer, whose
    candidate is returned beside the state. *)
Definition mergeEffect (st : Screen) : Screen * option ElisionCandidate :=
  if bool_decide (is_Some (mergingIndex st)) then (st, None)
  else match findElisionCandidate (slots st) with
       | Some candidate =>
           (setMergingIndex (Some (index candidate)) st, Some candidate)
       | None => (st, None)
       end.

(** The timer of the merge effect. *)
Definition mergeTimeout (candidate : ElisionCandidate) (st : Screen)
    : Screen :=
  st |> setSlots (finishMerge candidate) |> setMergingIndex None.

Definition handleDragStart (i : nat) (st : Screen) : Screen :=
  if bool_decide (is_Some (mergingIndex st)) then st
  else setDraggedSlotIndex (Some i) st.

(** The two [splice] calls of [handleDrop]: the dragged item is taken
    out and put back in front of the item then at [targetIndex], or at
    the end.  A dragged index outside the array leaves nothing to take
    and the array would get an [undefined] entry: there is no result. *)
Definition moveSlot (dragged targetIndex : nat)
    (newSlots : list SentenceSlot) : option (list SentenceSlot) :=
  match newSlots !! dragged with
  | Some draggedItem =>
      let rest := take dragged newSlots ++ drop (S dragged) newSlots in
      Some (take targetIndex rest ++ draggedItem :: drop targetIndex rest)
  | None => None
  end.

Definition handleDrop (targetIndex : nat) (st : Screen) : option Screen :=
  match draggedSlotIndex st with
  | None => Some st
  | Some dragged =>
      if bool_decide (dragged = targetIndex)
         || bool_decide (is_Some (mergingIndex st))
      then Some st
      else match moveSlot dragged targetIndex (slots st) with
           | Some newSlots =>
               Some (st |> setSlots (fun _ => newSlots)
                        |> setDraggedSlotIndex None)
           | None => None
           end
  end.

Definition handleSlotClick (id : jsstring) (st : Screen) : Screen :=
  if locked st then st
  else
    let st' := st |> setActiveSlotId (if isActive st id then None else Some id)
                  |> setIsAddingNew false
                  |> setCustomizingWord None in
    match List.find (fun s => bool_decide (s_id s = id)) (slots st) with
    | Some slot =>
        if bool_decide (s_type slot ∈ [VERB; VERB_AUX; VERB_INF; VERB_PP])
        then setPickerCategory VERB st'
        else setPickerCategory (s_type slot) st'
    | None => st'
    end.

Definition handleAddNewClick (st : Screen) : Screen :=
  if locked st then st
  else st |> setIsAddingNew true
          |> setActiveSlotId None
          |> setCustomizingWord None
          |> setPickerCategory VERB.

Definition handleRemoveSlot (id : jsstring) (st : Screen) : Screen :=
  if locked st then st
  else
    let st' :=
      setSlots (List.filter (fun s => negb (bool_decide (s_id s = id)))) st in
    if isActive st id then setActiveSlotId None st' else st'.

(** [commitWordSelection]; [newId] is the value of the template
    [slot-${Date.now()}-${Math.random()}] at the call. *)
Definition commitWordSelection (newId : jsstring) (word : Word)
    (st : Screen) : Screen :=
  let st' :=
    if truthy (activeSlotId st) then
      st |> setSlots (map (fun slot =>
                             if isActive st (s_id slot)
                             then {| s_id := s_id slot;
                                     s_type := w_type word;
                                     s_value := Some word;
                                     s_placeholder := s_placeholder slot;
                                     s_fixed := s_fixed slot |}
                             else slot))
         |> setActiveSlotId None
    else if isAddingNew st then
      let newSlot := {| s_id := newId;
                        s_type := w_type word;
                        s_value := Some word;
                        s_placeholder := posName (w_type word);
                        s_fixed := None |} in
      setSlots (fun prev => prev ++ [newSlot]) st
    else st in
  setCustomizingWord None st'.

Definition handleInitialWordSelect (newId : jsstring) (word : Word)
    (st : Screen) : Screen :=
  if bool_decide (w_type word = NOUN) || bool_decide (w_type word = ADJECTIVE)
  then
    let isFem := tagsInclude word (js "f") in
    st |> setCustomizingWord (Some word)
       |> setCustomGender (if isFem then G_f else G_m)
       |> setCustomNumber N_s
  else if bool_decide (w_type word = VERB_INF)
  then setCustomizingWord (Some word) st
  else commitWordSelection newId word st.

Definition handleConfirmVariation (newId : jsstring) (st : Screen) : Screen :=
  match customizingWord st with
  | None => st
  | Some word =>
      let variedWord :=
        generateVariations word (customGender st) (customNumber st) in
      commitWordSelection newId variedWord st
  end.

(** [handleCheckSentence] from the answer of the judge on: the sentence
    sent is [sentenceStr (slots st)]; nothing happens on an empty
    board. *)
Definition handleCheckSentence (result : ValidationResult) (st : Screen)
    : Screen :=
  if bool_decide (length (slots st) = 0%nat) then st
  else
    let st' := st |> setValidation (Some result)
                  |> setActiveSlotId None
                  |> setIsAddingNew false
                  |> setCustomizingWord None in
    if isValid result then
      let basePoints :=
        (10 + (if (5 <? length (slots st))%nat then 5 else 0))%Z in
      let bonusPoints :=
        (if truthy (activeChallenge st) then 20 else 0)%Z in
      let st'' :=
        setGameState
          (fun prev =>
             {| score := (score prev + basePoints + bonusPoints)%Z;
                sentencesCompleted := (sentencesCompleted prev + 1)%Z;
                timeLeft :=
                  if bool_decide (mode = BLITZ)
                  then (timeLeft prev
                        + (if truthy (activeChallenge st) then 15 else 10))%Z
                  else timeLeft prev;
                isPlaying := isPlaying prev;
                isGameOver := isGameOver prev |}) st' in
      if truthy (followUpQuestion result) then
        st'' |> setPendingChallenge (followUpQuestion result)
             |> setQuestionHistory
                  (fun prev =>
                     drop (length prev - 9) prev
                     ++ [default [] (followUpQuestion result)])
      else setPendingChallenge None st''
    else st'.

Definition endGame (prev : GameState) : GameState :=
  {| score := score prev;
     sentencesCompleted := sentencesCompleted prev;
     timeLeft := timeLeft prev;
     isPlaying := false;
     isGameOver := true |}.

Definition handleNext (st : Screen) : Rand Screen :=
  let st' := st |> setActiveChallenge None |> setPendingChallenge None in
  if bool_decide (mode = STANDARD)
     && (10 <=? sentencesCompleted (gameState st))%Z
  then ret (setGameState endGame st')
  else startNewRound st'.

Definition handleAcceptChallenge (st : Screen) : Rand Screen :=
  if negb (truthy (pendingChallenge st)) then ret st
  else startNewRound (st |> setActiveChallenge (pendingChallenge st)
                         |> setPendingChallenge None).

(** The callback of the Blitz clock, once a second. *)
Definition tick (prev : GameState) : GameState :=
  if (timeLeft prev <=? 1)%Z then
    {| score := score prev;
       sentencesCompleted := sentencesCompleted prev;
       timeLeft := 0;
       isPlaying := false;
       isGameOver := true |}
  else
    {| score := score prev;
       sentencesCompleted := sentencesCompleted prev;
       timeLeft := (timeLeft prev - 1)%Z;
       isPlaying := isPlaying prev;
       isGameOver := isGameOver prev |}.

End GameScreen.

(** ** The word picker (GameScreen) *)

(** The category tabs of the picker, [visibleCategories]; a click on a
    tab sets [pickerCategory] to it. *)
Definition visibleCategories : list PartOfSpeech :=
  [SUBJECT; VERB; NEGATION; NOUN; ADJECTIVE; ARTICLE; POSSESSIVE;
   PREPOSITION; CONNECTOR].

(** [Array.prototype.indexOf]: the first index of [x], or -1. *)
Fixpoint indexOfFrom (arr : list jsstring) (x : jsstring) (i : Z) : Z :=
  match arr with
  | [] => (-1)%Z
  | y :: arr' =>
      if bool_decide (y = x) then i else indexOfFrom arr' x (i + 1)%Z
  end.

Definition indexOf (arr : list jsstring) (x : jsstring) : Z :=
  indexOfFrom arr x 0%Z.

(** [Array.prototype.sort] with a comparator.  The sort is stable, so
    with a consistent comparator its result is the one sorted
    arrangement that keeps equal elements in their order; insertion
    from the right computes it.  With any comparator the result is a
    rearrangement of the array. *)
Section ArraySort.

Context {A : Type}.
Variable compareFn : A -> A -> Z.

Fixpoint sortInsert (x : A) (l : list A) : list A :=
  match l with
  | [] => [x]
  | y :: l' =>
      if (compareFn x y <=? 0)%Z then x :: l else y :: sortInsert x l'
  end.

Fixpoint arraySort (l : list A) : list A :=
  match l with
  | [] => []
  | x :: l' => sortInsert x (arraySort l')
  end.

End ArraySort.

Section Picker.

(** [String.prototype.localeCompare] depends on the locale of the
    browser. *)
Variable localeCompare : jsstring -> jsstring -> Z.
Variable wordPool : list Word.

Definition priority : list jsstring := [js "avoir"; js "être"; js "aller"].

(** The comparator of the verb list. *)
Definition verbOrder (a b : Word) : Z :=
  let idxA := indexOf priority (toLowerCase (w_text a)) in
  let idxB := indexOf priority (toLowerCase (w_text b)) in
  if negb (idxA =? -1)%Z && negb (idxB =? -1)%Z then (idxA - idxB)%Z
  else if negb (idxA =? -1)%Z then (-1)%Z
  else if negb (idxB =? -1)%Z then 1%Z
  else localeCompare (w_text a) (w_text b).

Definition getFilteredWords (pickerCategory : PartOfSpeech) : list Word :=
  if bool_decide (pickerCategory = VERB) then
    let verbs :=
      List.filter (fun w => bool_decide (w_type w = VERB_INF)) wordPool in
    arraySort verbOrder verbs
  else
    arraySort (fun a b => localeCompare (w_text a) (w_text b))
      (List.filter (fun w => bool_decide (w_type w = pickerCategory))
         wordPool).

End Picker.

(** ** The judge (src/services/geminiService.ts)

    [validateSentence] answers by itself when no API key is set and
    when the request fails; otherwise it returns what the model
    replied.  The reply, parsed by [JSON.parse] and read as a
    [ValidationResult], is a parameter: [None] stands for a request or
    a parse that throws.  The other arguments of the function only go
    into the prompt. *)
Section Judge.

Variable apiKey : option jsstring.

Definition validateSentence (reply : option ValidationResult)
    (sentence : jsstring) : ValidationResult :=
  if negb (truthy apiKey) then
    {| isValid := true;
       correction := sentence;
       explanation := js "Demo mode (No API Key): Looks good!";
       v_translation := js "This is a demo translation.";
       feedbackType := perfect;
       followUpQuestion := Some (js "Et toi, Ã§a va ?") |}
  else
    match reply with
    | Some result => result
    | None =>
        {| isValid := false;
           correction := sentence;
           explanation :=
             js "Something went wrong with the AI judge. Please try again.";
           v_translation := js "Error translating.";
           feedbackType := minor_error;
           followUpQuestion := None |}
    end.

(** [handleCheckSentence] with its call of the judge: the sentence sent
    is the string pass over the texts of the board. *)
Definition checkSentence (mode : GameMode) (reply : option ValidationResult)
    (st : Screen) : Screen :=
  handleCheckSentence mode
    (validateSentence reply (sentenceStr (slots st))) st.

End Judge.

(** * Specification-side definitions *)

(** ** The slot-level scan *)

(** The qualifying condition on an adjacent pair, in the words of the
    specification. *)
Definition specTriggerSet : list jsstring :=
  [js "je"; js "me"; js "te"; js "se"; js "le"; js "la"; js "de"; js "ne";
   js "que"; js "jusque"; js "si"; js "ce"].

Definition specVowelClass : jsstring := js "aeiouyhéèê".

Definition beginsWithVowel (w : jsstring) : Prop :=
  exists c r, w = c :: r /\ c ∈ specVowelClass.

Definition qualifyingPair (a b : SentenceSlot) : Prop :=
  exists wa wb,
    s_value a = Some wa /\ s_value b = Some wb /\
    let w1 := toLowerCase (w_text wa) in
    let w2 := toLowerCase (w_text wb) in
    w1 ∈ specTriggerSet /\
    beginsWithVowel w2 /\
    (w1 = js "si" -> js "il" `prefix_of` w2) /\
    (w1 = js "ce" -> js "est" `prefix_of` w2 \/ js "ét" `prefix_of` w2).

(** The number of occurrences of a code unit in a string; the
    apostrophe is U+0027. *)
Definition countUnit (u : N) (s : jsstring) : nat :=
  length (List.filter (N.eqb u) s).

Definition apostrophes (s : jsstring) : nat := countUnit 39 s.

(** ** Concrete words and slot sequences *)

(** An oracle for closed examples: every draw returns the same suffix. *)
Definition fixedRandom : nat -> jsstring := fun _ => js "k3j9x0q2a".

(** The word [createWord] returns at the [k]-th draw. *)
Definition drawnWord (random : nat -> jsstring) (k : nat) (text : jsstring)
    (type : PartOfSpeech) (translation : jsstring) (tags : list jsstring)
    : Word :=
  fst (createWord random text type translation tags k).

Definition wordAt : nat -> jsstring -> PartOfSpeech -> jsstring ->
    list jsstring -> Word :=
  drawnWord fixedRandom.

(** A filled slot as the game screen builds it: the slot takes the type
    of its word and the type's name as placeholder. *)
Definition slotOf (i : N) (w : Word) : SentenceSlot :=
  {| s_id := js "slot-" ++ [48 + i];
     s_type := w_type w;
     s_value := Some w;
     s_placeholder := posName (w_type w);
     s_fixed := None |}.

Definition wordJe : Word := wordAt 0 (js "Je") SUBJECT (js "I") [].
Definition wordAi : Word := wordAt 1 (js "ai") VERB_AUX (js "have (Je)") [js "Je"].
Definition wordUn : Word := wordAt 2 (js "un") ARTICLE (js "a (m)") [].
Definition wordChat : Word :=
  wordAt 3 (js "chat") NOUN (js "cat") [js "m"; js "mutable"].

(** The slot sequence [Je, ai, un, chat]. *)
Definition scenarioSlots : list SentenceSlot :=
  [slotOf 0 wordJe; slotOf 1 wordAi; slotOf 2 wordUn; slotOf 3 wordChat].

(** The candidate [findElisionCandidate] returns on it. *)
Definition scenarioCandidate : ElisionCandidate :=
  {| index := 0;
     mergedSlot :=
       {| s_id := js "slot-0";
          s_type := VERB_AUX;
          s_value :=
            Some {| w_id := js "Je-Subject-k3j9x0q2a+ai-Auxiliary-k3j9x0q2a";
                    w_text := js "J'ai";
                    w_type := VERB_AUX;
                    w_translation := js "I + have (Je)";
                    w_tags := Some [js "Je"] |};
          s_placeholder := js "Auxiliary";
          s_fixed := None |} |}.

Definition wordDe : Word := wordAt 0 (js "de") PREPOSITION (js "of/from/about") [].
Definition wordAujourdhui : Word :=
  wordAt 1 (js "aujourd'hui") ADVERB (js "today") [].

(** The slot sequence [de, aujourd'hui]. *)
Definition aujourdhuiSlots : list SentenceSlot :=
  [slotOf 0 wordDe; slotOf 1 wordAujourdhui].

(** ** The fixed paradigms of the three auxiliaries

    The six present-tense forms and the past participle of each verb, as
    the tables [AUX_AVOIR_ETRE] and [AUX_ALLER] list them; the number is
    the position of the entry's draw in module initialisation. *)
Section Paradigms.

Variable random : nat -> jsstring.

Definition avoirForms : list Word := [
  drawnWord random 70 (js "ai") VERB_AUX (js "have (Je)") [js "Je"];
  drawnWord random 71 (js "as") VERB_AUX (js "have (Tu)") [js "Tu"];
  drawnWord random 72 (js "a") VERB_AUX (js "has (Il/Elle)") [js "Il"; js "Elle"];
  drawnWord random 73 (js "avons") VERB_AUX (js "have (Nous)") [js "Nous"];
  drawnWord random 74 (js "avez") VERB_AUX (js "have (Vous)") [js "Vous"];
  drawnWord random 75 (js "ont") VERB_AUX (js "have (Ils/Elles)")
    [js "Ils"; js "Elles"]
].

Definition avoirParticiple : Word :=
  drawnWord random 76 (js "eu") VERB_PP (js "had") [].

Definition etreForms : list Word := [
  drawnWord random 77 (js "suis") VERB_AUX (js "am (Je)") [js "Je"];
  drawnWord random 78 (js "es") VERB_AUX (js "are (Tu)") [js "Tu"];
  drawnWord random 79 (js "est") VERB_AUX (js "is (Il/Elle)") [js "Il"; js "Elle"];
  drawnWord random 80 (js "sommes") VERB_AUX (js "are (Nous)") [js "Nous"];
  drawnWord random 81 (js "êtes") VERB_AUX (js "are (Vous)") [js "Vous"];
  drawnWord random 82 (js "sont") VERB_AUX (js "are (Ils/Elles)")
    [js "Ils"; js "Elles"]
].

Definition etreParticiple : Word :=
  drawnWord random 83 (js "été") VERB_PP (js "been") [].

Definition allerForms : list Word := [
  drawnWord random 61 (js "vais") VERB_AUX (js "am going (Je)") [js "Je"];
  drawnWord random 62 (js "vas") VERB_AUX (js "are going (Tu)") [js "Tu"];
  drawnWord random 63 (js "va") VERB_AUX (js "is going (Il/Elle)")
    [js "Il"; js "Elle"];
  drawnWord random 64 (js "allons") VERB_AUX (js "are going (Nous)") [js "Nous"];
  drawnWord random 65 (js "allez") VERB_AUX (js "are going (Vous)") [js "Vous"];
  drawnWord random 66 (js "vont") VERB_AUX (js "are going (Ils/Elles)")
    [js "Ils"; js "Elles"]
].

Definition allerParticiple : Word :=
  drawnWord random 67 (js "allé") VERB_PP (js "gone") [].

End Paradigms.

(** Infinitives for closed examples. *)
Definition wordAvoirCapital : Word :=
  wordAt 100 (js "Avoir") VERB_INF (js "to have") [].
Definition wordAllerCapital : Word :=
  wordAt 100 (js "Aller") VERB_INF (js "to go") [].
Definition wordAvoir : Word :=
  wordAt 100 (js "avoir") VERB_INF (js "to have (Aux)") [].
Definition wordDormir : Word :=
  wordAt 100 (js "dormir") VERB_INF (js "to sleep") [].
Definition wordNettoyer : Word :=
  wordAt 100 (js "nettoyer") VERB_INF (js "to clean") [].

(** ** Inflection rules, in the words of the specification *)

(** "[t] ends in [suf]". *)
Definition endsIn (t suf : jsstring) : Prop := exists stem, t = stem ++ suf.

(** The fixed irregular feminines of nouns. *)
Definition nounFeminineTable : list (jsstring * jsstring) :=
  [(js "chat", js "chatte"); (js "chien", js "chienne");
   (js "sorcier", js "sorcière")].

Definition irregularNoun (t : jsstring) : Prop :=
  exists t', (t, t') ∈ nounFeminineTable.

(** The feminine of a noun, by priority: the irregular lookup, "-er" to
    "-ère", "-f" to "-ve", "-x" to "-se", and an "e" appended unless the
    text ends in "e" already. *)
Inductive feminineNoun : jsstring -> jsstring -> Prop :=
  | fem_irregular t t' :
      (t, t') ∈ nounFeminineTable -> feminineNoun t t'
  | fem_er stem :
      ~ irregularNoun (stem ++ js "er") ->
      feminineNoun (stem ++ js "er") (stem ++ js "ère")
  | fem_f stem :
      ~ irregularNoun (stem ++ js "f") ->
      feminineNoun (stem ++ js "f") (stem ++ js "ve")
  | fem_x stem :
      ~ irregularNoun (stem ++ js "x") ->
      feminineNoun (stem ++ js "x") (stem ++ js "se")
  | fem_e stem :
      ~ irregularNoun (stem ++ js "e") ->
      feminineNoun (stem ++ js "e") (stem ++ js "e")
  | fem_append t :
      ~ irregularNoun t ->
      ~ endsIn t (js "er") -> ~ endsIn t (js "f") -> ~ endsIn t (js "x") ->
      ~ endsIn t (js "e") ->
      feminineNoun t (t ++ js "e").

(** "Tagged feminine": the tag 'f' of the lexical tables or the tag
    'feminine' of an earlier inflection. *)
Definition taggedFeminine (w : Word) : Prop :=
  exists ts, w_tags w = Some ts /\ (js "f" ∈ ts \/ js "feminine" ∈ ts).

(** The gender step of a noun. *)
Inductive nounGenderStep (w : Word) : Gender -> jsstring -> Prop :=
  | ngs_masculine : nounGenderStep w G_m (w_text w)
  | ngs_already : taggedFeminine w -> nounGenderStep w G_f (w_text w)
  | ngs_feminine t' :
      ~ taggedFeminine w -> feminineNoun (w_text w) t' ->
      nounGenderStep w G_f t'.

(** The plural of a noun: unchanged after s, x or z, an "x" after "-au"
    or "-eu", "-al" to "-aux", an "s" otherwise. *)
Inductive pluralNoun : jsstring -> jsstring -> Prop :=
  | pl_unchanged t :
      endsIn t (js "s") \/ endsIn t (js "x") \/ endsIn t (js "z") ->
      pluralNoun t t
  | pl_au stem : pluralNoun (stem ++ js "au") (stem ++ js "au" ++ js "x")
  | pl_eu stem : pluralNoun (stem ++ js "eu") (stem ++ js "eu" ++ js "x")
  | pl_al stem : pluralNoun (stem ++ js "al") (stem ++ js "aux")
  | pl_s t :
      ~ endsIn t (js "s") -> ~ endsIn t (js "x") -> ~ endsIn t (js "z") ->
      ~ endsIn t (js "au") -> ~ endsIn t (js "eu") -> ~ endsIn t (js "al") ->
      pluralNoun t (t ++ js "s").

Inductive nounNumberStep : Number -> jsstring -> jsstring -> Prop :=
  | nns_singular t : nounNumberStep N_s t t
  | nns_plural t t' : pluralNoun t t' -> nounNumberStep N_pl t t'.

(** The regular feminine of an adjective: an "e" appended unless the
    text ends in "e" already. *)
Inductive feminineAdjective : jsstring -> jsstring -> Prop :=
  | fa_e stem : feminineAdjective (stem ++ js "e") (stem ++ js "e")
  | fa_append t : ~ endsIn t (js "e") -> feminineAdjective t (t ++ js "e").


(** The regular plural of an adjective: unchanged after s or x, an "x"
    after "-au", an "s" otherwise. *)
Inductive pluralAdjective : jsstring -> jsstring -> Prop :=
  | pa_unchanged t :
      endsIn t (js "s") \/ endsIn t (js "x") -> pluralAdjective t t
  | pa_au stem : pluralAdjective (stem ++ js "au") (stem ++ js "au" ++ js "x")
  | pa_s t :
      ~ endsIn t (js "s") -> ~ endsIn t (js "x") -> ~ endsIn t (js "au") ->
      pluralAdjective t (t ++ js "s").



(** Words for closed examples. *)
Definition wordCheval : Word := wordAt 0 (js "cheval") NOUN (js "horse") [js "m"].
Definition wordGrandMasculine : Word :=
  generateVariations (wordAt 0 (js "grand") ADJECTIVE (js "big") []) G_m N_s.



Definition pairSlots (first second : jsstring) : list SentenceSlot :=
  [slotOf 0 (wordAt 0 first ARTICLE (js "first") []);
   slotOf 1 (wordAt 1 second NOUN (js "second") [])].

(** The text of the merge the slot-level scan returns, if any. *)
Definition mergedTextOf (slots : list SentenceSlot) : option jsstring :=
  match findElisionCandidate slots with
  | Some c => w_text <$> s_value (mergedSlot c)
  | None => None
  end.

(** A text without white space: a single word for the string pass. *)
Definition noWhiteSpace (s : jsstring) : Prop :=
  Forall (fun c => isWhiteSpace c = false) s.

(** * Definitions for the further properties *)


(** Words and pack entries for closed examples. *)
Definition wordGrand : Word := wordAt 0 (js "grand") ADJECTIVE (js "big") [].
Definition packVerbDanser : PackEntry := mkPackEntry (js "Danser") (js "dance").

(** ** The game screen as a machine

    One event is one run of a handler, of the merge effect, of its
    timer or of the clock; handlers run one at a time.  The machine
    holds the screen state, the number of random draws made, and the
    candidates of the merge timers not yet fired, oldest first. *)
Inductive Event : Type :=
  | EvSlotClick (id : jsstring)
  | EvAddNewClick
  | EvRemoveSlot (id : jsstring)
  | EvDragStart (i : nat)
  | EvDrop (targetIndex : nat)
  | EvPickCategory (cat : PartOfSpeech)
  | EvInitialWordSelect (newId : jsstring) (word : Word)
  | EvCommitWord (newId : jsstring) (word : Word)
  | EvConfirmVariation (newId : jsstring)
  | EvCheckSentence (result : ValidationResult)
  | EvNext
  | EvAcceptChallenge
  | EvMergeEffect
  | EvMergeTimeout
  | EvTick.

Record Machine : Type := mkMachine {
  screen : Screen;
  draws : nat;
  timers : list ElisionCandidate
}.

Section Machine.

Variable mode : GameMode.
Variable wordPool : list Word.
Variable random : nat -> jsstring.
Variable randomFloor : nat -> nat -> nat.
Variable dateNow : nat -> jsstring.

Definition onScreen (f : Screen -> Screen) (m : Machine) : Machine :=
  {| screen := f (screen m); draws := draws m; timers := timers m |}.

Definition onScreenRand (f : Screen -> Rand Screen) (m : Machine) : Machine :=
  let '(st, n) := f (screen m) (draws m) in
  {| screen := st; draws := n; timers := timers m |}.

(** An event that the source cannot complete (a drop of an index that is
    not on the board) or that the screen does not offer (a click on a
    tab that is not among the visible categories) has no next state. *)
Definition runEvent (e : Event) (m : Machine) : option Machine :=
  match e with
  | EvSlotClick id => Some (onScreen (handleSlotClick id) m)
  | EvAddNewClick => Some (onScreen handleAddNewClick m)
  | EvRemoveSlot id => Some (onScreen (handleRemoveSlot id) m)
  | EvDragStart i => Some (onScreen (handleDragStart i) m)
  | EvDrop targetIndex =>
      match handleDrop targetIndex (screen m) with
      | Some st => Some (onScreen (fun _ => st) m)
      | None => None
      end
  | EvPickCategory cat =>
      if bool_decide (cat ∈ visibleCategories)
      then Some (onScreen (setPickerCategory cat) m)
      else None
  | EvInitialWordSelect newId word =>
      Some (onScreen (handleInitialWordSelect newId word) m)
  | EvCommitWord newId word =>
      Some (onScreen (commitWordSelection newId word) m)
  | EvConfirmVariation newId =>
      Some (onScreen (handleConfirmVariation newId) m)
  | EvCheckSentence result =>
      Some (onScreen (handleCheckSentence mode result) m)
  | EvNext =>
      Some (onScreenRand
              (handleNext mode wordPool random randomFloor dateNow) m)
  | EvAcceptChallenge =>
      Some (onScreenRand
              (handleAcceptChallenge wordPool random randomFloor dateNow) m)
  | EvMergeEffect =>
      let '(st, timer) := mergeEffect (screen m) in
      Some {| screen := st; draws := draws m;
              timers := timers m ++ option_list timer |}
  | EvMergeTimeout =>
      match timers m with
      | candidate :: rest =>
          Some {| screen := mergeTimeout candidate (screen m);
                  draws := draws m; timers := rest |}
      | [] => Some m
      end
  | EvTick =>
      if bool_decide (mode = BLITZ)
      then Some (onScreen (setGameState tick) m)
      else Some m
  end.

Fixpoint runEvents (es : list Event) (m : Machine) : option Machine :=
  match es with
  | [] => Some m
  | e :: es' =>
      match runEvent e m with
      | Some m' => runEvents es' m'
      | None => None
      end
  end.

(** The screen as mounted, after [n0] draws. *)
Definition initialMachine (n0 : nat) : Machine :=
  {| screen := initialScreen; draws := n0; timers := [] |}.

End Machine.





(** The rank of a verb among the auxiliaries listed first, or -1. *)
Definition auxRank (w : Word) : Z :=
  indexOf priority (toLowerCase (w_text w)).

(** A comparator that orders texts by their code units. *)
Fixpoint compareUnits (a b : jsstring) : Z :=
  match a, b with
  | [], [] => 0%Z
  | [], _ :: _ => (-1)%Z
  | _ :: _, [] => 1%Z
  | x :: a', y :: b' =>
      if (x <? y)%N then (-1)%Z
      else if (y <? x)%N then 1%Z
      else compareUnits a' b'
  end.

(** A pool for closed examples. *)
Definition wordEtre : Word := wordAt 10 (js "Être") VERB_INF (js "to be") [].
Definition wordDanser : Word :=
  wordAt 11 (js "danser") VERB_INF (js "to dance") [].
Definition wordChanter : Word :=
  wordAt 12 (js "chanter") VERB_INF (js "to sing") [].
Definition samplePool : list Word :=
  [wordDanser; wordChat; wordEtre; wordChanter; wordAi; wordAvoir].

(** A session for closed examples: two words are added, the merge runs,
    the sentence is judged valid with a follow-up question. *)
Definition sampleResult : ValidationResult :=
  {| isValid := true;
     correction := js "J'ai";
     explanation := js "Bien !";
     v_translation := js "I have";
     feedbackType := perfect;
     followUpQuestion := Some (js "Et toi ?") |}.

Definition sampleSession : list Event :=
  [EvAddNewClick;
   EvInitialWordSelect (js "slot-1") wordJe;
   EvCommitWord (js "slot-2") wordAi;
   EvMergeEffect;
   EvMergeTimeout;
   EvCheckSentence sampleResult].

Definition sampleMachine : option Machine :=
  runEvents BLITZ [] fixedRandom (fun _ _ => 0%nat) (fun _ => js "0")
    sampleSession (initialMachine 0).

(** The machine of the session before and after the judgement. *)
Definition sampleBoard : Machine :=
  Eval vm_compute in
    default (initialMachine 0)
      (runEvents BLITZ [] fixedRandom (fun _ _ => 0%nat) (fun _ => js "0")
         (take 5 sampleSession) (initialMachine 0)).


(** A board on which the first slot is being dragged, and the board
    after the drop on the third. *)
Definition sampleDragScreen : Screen :=
  initialScreen |> setSlots (fun _ => scenarioSlots)
                |> setDraggedSlotIndex (Some 0%nat).

Definition sampleDropped : Screen :=
  Eval vm_compute in default initialScreen (handleDrop 2 sampleDragScreen).

(** * Properties *)

(** ** Evaluation checks *)

Example js_ascii : js "que" = [113; 117; 101].
Proof. reflexivity. Qed.

Example js_latin1 : js "été" = [233; 116; 233].
Proof. reflexivity. Qed.

Example js_slice : slice0 (js "commencer") 2 = js "commenc".
Proof. reflexivity. Qed.

Example js_endsWith : endsWith (js "manger") (js "ger") = true.
Proof. reflexivity. Qed.

Example js_lower : toLowerCase (js "JE Été") = js "je été".
Proof. reflexivity. Qed.

Example js_replace : replaceFirst (js "to ") [] (js "to go to ") = js "go to ".
Proof. reflexivity. Qed.

Example inflect_chat :
  w_text (generateVariations
            (mkWord (js "id") (js "chat") NOUN (js "cat")
                    (Some [js "m"; js "mutable"])) G_f N_s) = js "chatte".
Proof. reflexivity. Qed.

Example inflect_beau :
  w_text (generateVariations
            (mkWord (js "id") (js "beau") ADJECTIVE (js "beautiful") (Some []))
            G_f N_pl) = js "belles".
Proof. vm_compute. reflexivity. Qed.

Example elide_je_ai : applyFrenchElision (js "Je ai un chat") = js "J'ai un chat".
Proof. vm_compute. reflexivity. Qed.

Example elide_si_il : applyFrenchElision (js "si il le aime") = js "s'il l'aime".
Proof. vm_compute. reflexivity. Qed.

Example elide_ce_est : applyFrenchElision (js "ce est ce ami") = js "c'est ce ami".
Proof. vm_compute. reflexivity. Qed.

(** ** String helpers *)

(** Evaluate the string literals of the goal to their code units. *)
Ltac js_eval :=
  repeat match goal with
         | |- context [js ?s] =>
             let v := eval vm_compute in (js s) in change (js s) with v
         end.

Lemma endsWith_true (s suf : jsstring) :
  endsWith s suf = true <-> exists stem, s = stem ++ suf.
Proof.
  unfold endsWith. rewrite andb_true_iff, Nat.leb_le, bool_decide_eq_true.
  split.
  - intros [Hlen Hdrop]. exists (take (length s - length suf) s).
    rewrite <- (take_drop (length s - length suf) s) at 1. by rewrite Hdrop.
  - intros [stem ->]. rewrite length_app. split; [lia|].
    replace (length stem + length suf - length suf)%nat with (length stem) by lia.
    apply drop_app_length.
Qed.

Lemma endsWith_false (s suf : jsstring) :
  endsWith s suf = false <-> forall stem, s <> stem ++ suf.
Proof.
  rewrite <- not_true_iff_false, endsWith_true. split.
  - intros H stem Heq. apply H. eauto.
  - intros H [stem Heq]. exact (H stem Heq).
Qed.

Lemma slice0_app (stem suf : jsstring) :
  slice0 (stem ++ suf) (length suf) = stem.
Proof.
  unfold slice0. rewrite length_app.
  replace (length stem + length suf - length suf)%nat with (length stem) by lia.
  apply take_app_length.
Qed.

Lemma slice0_suffix (stem suf : jsstring) (k : nat) :
  length suf = k -> slice0 (stem ++ suf) k = stem.
Proof. intros <-. apply slice0_app. Qed.

Lemma startsWith_true (s p : jsstring) :
  startsWith s p = true <-> p `prefix_of` s.
Proof.
  unfold startsWith. rewrite bool_decide_eq_true. split.
  - intros H. exists (drop (length p) s).
    rewrite <- (take_drop (length p) s) at 1. by rewrite H.
  - intros [k ->]. apply take_app_length.
Qed.

Lemma includes_true (arr : list jsstring) (x : jsstring) :
  includes arr x = true <-> x ∈ arr.
Proof. unfold includes. apply bool_decide_eq_true. Qed.

(** ** The slot-level scan *)

Lemma vowels_includes_charAt (w : jsstring) :
  includes vowels (charAt w 0) = true <-> beginsWithVowel w.
Proof.
  rewrite includes_true. unfold beginsWithVowel, charAt, vowels, specVowelClass.
  js_eval. destruct w as [|c r]; simpl.
  - split.
    + intros H. repeat (apply elem_of_cons in H as [H|H]; [discriminate|]).
      by apply elem_of_nil in H.
    + intros (c & r & H & _). discriminate.
  - rewrite take_0. split.
    + intros H. exists c, r. split; [done|].
      repeat (apply elem_of_cons in H as [H|H];
              [injection H as ->; set_solver|]).
      by apply elem_of_nil in H.
    + intros (c' & r' & Heq & H). injection Heq as <- <-.
      repeat (apply elem_of_cons in H as [->|H]; [set_solver|]).
      by apply elem_of_nil in H.
Qed.

Lemma shouldElide_spec (a b : SentenceSlot) :
  shouldElide a b = true <-> qualifyingPair a b.
Proof.
  unfold shouldElide, qualifyingPair.
  destruct (s_value a) as [wa|], (s_value b) as [wb|];
    try (split; [discriminate | intros (? & ? & ? & ? & _); discriminate]).
  set (w1 := toLowerCase (w_text wa)). set (w2 := toLowerCase (w_text wb)).
  split.
  - intros H. exists wa, wb. split; [done|]. split; [done|]. cbv zeta.
    fold w1 w2.
    destruct (includes elisionTriggers w1) eqn:Ht; simpl in H; [|discriminate].
    destruct (includes vowels (charAt w2 0)) eqn:Hv; simpl in H; [|discriminate].
    apply includes_true in Ht. apply vowels_includes_charAt in Hv.
    split; [exact Ht|]. split; [exact Hv|]. split.
    + intros Hsi. rewrite bool_decide_eq_true_2 in H by done. simpl in H.
      destruct (startsWith w2 (js "il")) eqn:Hil; simpl in H; [|discriminate].
      by apply startsWith_true.
    + intros Hce.
      destruct (bool_decide (w1 = js "si") && negb (startsWith w2 (js "il")));
        [discriminate|].
      rewrite bool_decide_eq_true_2 in H by done. simpl in H.
      destruct (startsWith w2 (js "est")) eqn:Hest; simpl in H.
      * left. by apply startsWith_true.
      * destruct (startsWith w2 (js "ét")) eqn:Het; simpl in H; [|discriminate].
        right. by apply startsWith_true.
  - intros (wa' & wb' & Ha & Hb & Ht & Hv & Hsi & Hce).
    injection Ha as <-. injection Hb as <-. fold w1 w2 in Ht, Hv, Hsi, Hce.
    apply includes_true in Ht. apply vowels_includes_charAt in Hv.
    unfold specTriggerSet in Ht. fold elisionTriggers in Ht.
    rewrite Ht, Hv. simpl.
    destruct (bool_decide (w1 = js "si")) eqn:Esi; simpl.
    + apply bool_decide_eq_true in Esi. apply Hsi, startsWith_true in Esi.
      rewrite Esi. simpl.
      destruct (bool_decide (w1 = js "ce")) eqn:Ece; simpl; [|done].
      apply bool_decide_eq_true in Ece.
      destruct (Hce Ece) as [H|H]; apply startsWith_true in H; rewrite H;
        simpl; [done|]. by rewrite andb_false_r.
    + destruct (bool_decide (w1 = js "ce")) eqn:Ece; simpl; [|done].
      apply bool_decide_eq_true in Ece.
      destruct (Hce Ece) as [H|H]; apply startsWith_true in H; rewrite H;
        simpl; [done|]. by rewrite andb_false_r.
Qed.


Lemma findElisionFrom_Some (slots : list SentenceSlot) (i : nat)
    (c : ElisionCandidate) :
  findElisionFrom i slots = Some c ->
  exists k a b,
    index c = (i + k)%nat /\
    slots !! k = Some a /\ slots !! S k = Some b /\
    shouldElide a b = true /\
    mergeSlots a b = Some (mergedSlot c) /\
    forall j a' b', (j < k)%nat ->
      slots !! j = Some a' -> slots !! S j = Some b' ->
      shouldElide a' b' = false.
Proof.
  revert i. induction slots as [|current rest IH]; intros i H; [discriminate|].
  simpl in H. destruct rest as [|next rest']; [discriminate|].
  destruct (shouldElide current next) eqn:E.
  - destruct (mergeSlots current next) as [merged|] eqn:M; [|discriminate].
    injection H as <-. exists 0%nat, current, next. simpl.
    repeat split; try done; try lia.
  - apply IH in H as (k & a & b & Hi & Ha & Hb & Hs & Hm & Hfirst).
    exists (S k), a, b. repeat split; try done; try lia.
    intros [|j] a' b' Hj Ha' Hb'.
    + simpl in Ha', Hb'. by injection Ha' as <-; injection Hb' as <-.
    + apply (Hfirst j); [lia|exact Ha'|exact Hb'].
Qed.



(** ** Merge construction *)

Lemma mergeSlots_text (a b m : SentenceSlot) :
  mergeSlots a b = Some m ->
  exists wa wb mw,
    s_value a = Some wa /\ s_value b = Some wb /\ s_value m = Some mw /\
    w_text mw = slice0 (w_text wa) 1 ++ js "'" ++ w_text wb.
Proof.
  unfold mergeSlots.
  destruct (s_value a) as [wa|], (s_value b) as [wb|]; try discriminate.
  intros [= <-]. exists wa, wb. eexists. repeat split; simpl.
  by destruct (bool_decide (toLowerCase (w_text wa) = js "si")).
Qed.

Lemma findElisionCandidate_pair (slots : list SentenceSlot)
    (c : ElisionCandidate) :
  findElisionCandidate slots = Some c ->
  exists a b,
    slots !! index c = Some a /\ slots !! S (index c) = Some b /\
    shouldElide a b = true /\ mergeSlots a b = Some (mergedSlot c).
Proof.
  intros H. apply findElisionFrom_Some in H as (k & a & b & Hi & Ha & Hb & Hs & Hm & _).
  simpl in Hi. subst k. by exists a, b.
Qed.

(** ** The merge loop reaches a fixed point *)

Lemma mergeStep_length (slots slots' : list SentenceSlot) :
  mergeStep slots = Some slots' -> S (length slots') = length slots.
Proof.
  unfold mergeStep. destruct (findElisionCandidate slots) as [c|] eqn:E;
    [|discriminate].
  intros [= <-]. apply findElisionCandidate_pair in E as (a & b & _ & Hb & _).
  apply lookup_lt_Some in Hb. unfold splice2.
  rewrite length_app, length_take. simpl. rewrite length_drop. lia.
Qed.

Lemma mergeLoop_fixed (fuel : nat) (slots : list SentenceSlot) :
  (length slots <= fuel)%nat -> mergeStep (mergeLoop fuel slots) = None.
Proof.
  revert slots. induction fuel as [|fuel IH]; intros slots Hlen.
  - destruct slots; [reflexivity | simpl in Hlen; lia].
  - simpl. destruct (mergeStep slots) as [slots'|] eqn:E; [|exact E].
    apply IH. apply mergeStep_length in E. lia.
Qed.

Lemma mergeToFixedPoint_fixed (slots : list SentenceSlot) :
  findElisionCandidate (mergeToFixedPoint slots) = None.
Proof.
  pose proof (mergeLoop_fixed (length slots) slots (Nat.le_refl _)) as H.
  unfold mergeStep in H. fold (mergeToFixedPoint slots) in H.
  by destruct (findElisionCandidate (mergeToFixedPoint slots)).
Qed.

(** C1, as the code has it: the merged text is the first word's text in
    its original case with its last code unit removed, an apostrophe,
    and the second word's text in its original case; the merge loop on
    [Je, ai, un, chat] ends in a sequence without candidate whose texts
    are "J'ai", "un", "chat" and whose assembled string is
    "J'ai un chat". *)
Theorem findElisionCandidate_merged_text :
  (forall (slots : list SentenceSlot) (c : ElisionCandidate),
     findElisionCandidate slots = Some c ->
     exists a b wa wb mw,
       slots !! index c = Some a /\ slots !! S (index c) = Some b /\
       s_value a = Some wa /\ s_value b = Some wb /\
       s_value (mergedSlot c) = Some mw /\
       w_text mw = slice0 (w_text wa) 1 ++ js "'" ++ w_text wb) /\
  findElisionCandidate (mergeToFixedPoint scenarioSlots) = None /\
  map (fun s => w_text <$> s_value s) (mergeToFixedPoint scenarioSlots)
    = [Some (js "J'ai"); Some (js "un"); Some (js "chat")] /\
  sentenceStr (mergeToFixedPoint scenarioSlots) = js "J'ai un chat".
Proof.
  split; [|split; [apply mergeToFixedPoint_fixed|split; vm_compute; reflexivity]].
  intros slots c H.
  apply findElisionCandidate_pair in H as (a & b & Ha & Hb & _ & Hm).
  apply mergeSlots_text in Hm as (wa & wb & mw & Hwa & Hwb & Hmw & Ht).
  by exists a, b, wa, wb, mw.
Qed.

Lemma findElisionCandidate_merged_text_witness :
  findElisionCandidate scenarioSlots = Some scenarioCandidate /\
  exists a b wa wb mw,
    scenarioSlots !! index scenarioCandidate = Some a /\
    scenarioSlots !! S (index scenarioCandidate) = Some b /\
    s_value a = Some wa /\ s_value b = Some wb /\
    s_value (mergedSlot scenarioCandidate) = Some mw /\
    w_text mw = slice0 (w_text wa) 1 ++ js "'" ++ w_text wb.
Proof.
  split; [vm_compute; reflexivity|].
  apply (proj1 findElisionCandidate_merged_text scenarioSlots scenarioCandidate).
  vm_compute; reflexivity.
Defined.

(** The claim C1 as worded fails on [Je, ai, un, chat]: the pair (Je, ai)
    qualifies, its merged text is "J'ai", which is not the lower-case
    trigger "je" without its last character followed by "'ai", and the
    assembled string after the merge loop is not "j'ai un chat". *)
Lemma merged_text_lowercase_prefix_counterexample :
  findElisionCandidate scenarioSlots = Some scenarioCandidate /\
  qualifyingPair (slotOf 0 wordJe) (slotOf 1 wordAi) /\
  (w_text <$> s_value (mergedSlot scenarioCandidate)) = Some (js "J'ai") /\
  js "J'ai" <> slice0 (toLowerCase (w_text wordJe)) 1 ++ js "'" ++ w_text wordAi /\
  sentenceStr (mergeToFixedPoint scenarioSlots) <> js "j'ai un chat".
Proof.
  split; [vm_compute; reflexivity|].
  split; [apply shouldElide_spec; vm_compute; reflexivity|].
  split; [vm_compute; reflexivity|].
  split; vm_compute; discriminate.
Qed.

(** ** Apostrophes in a merged text *)

Lemma countUnit_app (u : N) (s t : jsstring) :
  countUnit u (s ++ t) = (countUnit u s + countUnit u t)%nat.
Proof. unfold countUnit. by rewrite List.filter_app, length_app. Qed.

Lemma countUnit_absent (u : N) (s : jsstring) :
  u ∉ s -> countUnit u s = 0%nat.
Proof.
  unfold countUnit. induction s as [|c r IH]; intros H; [reflexivity|].
  simpl. destruct (N.eqb_spec u c) as [->|Hne].
  - exfalso. apply H. by left.
  - apply IH. intros Hin. apply H. by right.
Qed.

Lemma lowerUnit_apostrophe : lowerUnit 39 = 39.
Proof. reflexivity. Qed.

(** A word that lower-cases to a trigger holds no apostrophe. *)
Lemma trigger_no_apostrophe (w : jsstring) :
  toLowerCase w ∈ specTriggerSet -> 39 ∉ w.
Proof.
  intros Ht Hin.
  assert (39 ∈ toLowerCase w) as Hlow.
  { apply list_elem_of_In. rewrite <- lowerUnit_apostrophe.
    apply List.in_map. by apply list_elem_of_In. }
  revert Ht Hlow. unfold specTriggerSet. js_eval. generalize (toLowerCase w).
  intros l Ht Hlow.
  repeat (apply elem_of_cons in Ht as [->|Ht];
          [by repeat (apply elem_of_cons in Hlow as [Hlow|Hlow];
                      [discriminate|]); apply elem_of_nil in Hlow|]).
  by apply elem_of_nil in Ht.
Qed.

(** C10, as the code has it: the merged text holds one apostrophe more
    than the second word's text, hence exactly one whenever the second
    word's text holds none. *)
Theorem merged_text_apostrophes (slots : list SentenceSlot)
    (c : ElisionCandidate) :
  findElisionCandidate slots = Some c ->
  exists b wb mw,
    slots !! S (index c) = Some b /\ s_value b = Some wb /\
    s_value (mergedSlot c) = Some mw /\
    apostrophes (w_text mw) = S (apostrophes (w_text wb)) /\
    (apostrophes (w_text wb) = 0%nat -> apostrophes (w_text mw) = 1%nat).
Proof.
  intros H.
  apply findElisionCandidate_pair in H as (a & b & Ha & Hb & Hs & Hm).
  apply shouldElide_spec in Hs as (wa & wb & Hwa & Hwb & Ht & _).
  apply mergeSlots_text in Hm as (wa' & wb' & mw & Hwa' & Hwb' & Hmw & Htext).
  rewrite Hwa in Hwa'. rewrite Hwb in Hwb'.
  injection Hwa' as <-. injection Hwb' as <-.
  assert (apostrophes (w_text mw) = S (apostrophes (w_text wb))) as Hcount.
  { rewrite Htext. unfold apostrophes. rewrite !countUnit_app.
    rewrite (countUnit_absent 39 (slice0 (w_text wa) 1)).
    - reflexivity.
    - intros Hin. apply (trigger_no_apostrophe _ Ht).
      unfold slice0 in Hin. by apply elem_of_take in Hin as (i & Hi & _);
        apply list_elem_of_lookup_2 in Hi. }
  exists b, wb, mw. repeat split; try done. intros H0. by rewrite Hcount, H0.
Qed.

Lemma merged_text_apostrophes_witness :
  findElisionCandidate scenarioSlots = Some scenarioCandidate /\
  exists b wb mw,
    scenarioSlots !! S (index scenarioCandidate) = Some b /\
    s_value b = Some wb /\
    s_value (mergedSlot scenarioCandidate) = Some mw /\
    apostrophes (w_text mw) = S (apostrophes (w_text wb)) /\
    (apostrophes (w_text wb) = 0%nat -> apostrophes (w_text mw) = 1%nat).
Proof.
  split; [vm_compute; reflexivity|].
  apply (merged_text_apostrophes scenarioSlots scenarioCandidate).
  vm_compute; reflexivity.
Defined.

(** The claim C10 as worded fails on [de, aujourd'hui]: the pair
    qualifies and the merged text "d'aujourd'hui" holds two
    apostrophes. *)
Lemma merged_text_two_apostrophes_counterexample :
  exists c mw,
    findElisionCandidate aujourdhuiSlots = Some c /\
    s_value (mergedSlot c) = Some mw /\
    w_text mw = js "d'aujourd'hui" /\
    apostrophes (w_text mw) = 2%nat /\
    apostrophes (w_text mw) <> 1%nat.
Proof.
  eexists. eexists. split; [vm_compute; reflexivity|].
  split; [reflexivity|]. split; [vm_compute; reflexivity|].
  split; [vm_compute; reflexivity|]. vm_compute. discriminate.
Qed.

(** ** The verb conjugator *)

Section Conjugator.

Variable random : nat -> jsstring.

(** C2, as the code has it: a word whose text is exactly "avoir", "être"
    or "aller" gets the six table forms of that verb and its table past
    participle ("eu", "été", "allé"); no word is created, so nothing
    comes from the "-er" generator. *)
Theorem getVerbForms_auxiliaries (w : Word) (n : nat) :
  (w_text w = js "avoir" ->
   getVerbForms random w n =
     ({| inf := w; pp := Some (avoirParticiple random);
         conjugations := avoirForms random |}, n)) /\
  (w_text w = js "être" ->
   getVerbForms random w n =
     ({| inf := w; pp := Some (etreParticiple random);
         conjugations := etreForms random |}, n)) /\
  (w_text w = js "aller" ->
   getVerbForms random w n =
     ({| inf := w; pp := Some (allerParticiple random);
         conjugations := allerForms random |}, n)).
Proof.
  unfold getVerbForms.
  repeat split; intros H; rewrite H; reflexivity.
Qed.

(** C6: a word whose text is none of "avoir", "être", "aller" and does
    not end in "er" gets the empty paradigm: no forms, no past
    participle, the input word as infinitive; no word is created. *)
Theorem getVerbForms_unsupported (w : Word) (n : nat) :
  w_text w <> js "avoir" -> w_text w <> js "être" -> w_text w <> js "aller" ->
  endsWith (w_text w) (js "er") = false ->
  getVerbForms random w n =
    ({| inf := w; pp := None; conjugations := [] |}, n).
Proof.
  intros Ha He Hl Her. unfold getVerbForms.
  rewrite !bool_decide_eq_false_2 by done. rewrite Her. simpl.
  by destruct (endsWith (w_text w) (js "ir") || endsWith (w_text w) (js "re")).
Qed.

Lemma slice0_snoc (st : jsstring) (c : N) : slice0 (st ++ [c]) 1 = st.
Proof. apply (slice0_app st [c]). Qed.

Lemma endsWith_er_split (text st : jsstring) (c : N) :
  text = st ++ c :: js "er" ->
  forall stem, text = stem ++ js "er" -> stem = st ++ [c].
Proof.
  intros -> stem H. change (c :: js "er") with ([c] ++ js "er") in H.
  rewrite app_assoc in H. by apply app_inv_tail in H.
Qed.

(** C7: a word whose text ends in "er" and is not "aller" gets exactly
    five forms, tagged Je/Il/Elle, Tu, Nous, Vous and Ils/Elles: the
    singular stem with "e", "es" and (for the third plural) "ent", the
    stem with "ez", and the nous form, which is the stem with "eons"
    for "-ger", the stem with its last consonant replaced so that it
    ends in "çons" for "-cer", and the stem with "ons" otherwise; the
    singular stem is the stem, with a final "y" turned into "i" for
    "-yer"; the past participle is the stem with "é". *)
Theorem getVerbForms_regular_er (w : Word) (n : nat) :
  endsWith (w_text w) (js "er") = true -> w_text w <> js "aller" ->
  exists stem sg nous vf,
    w_text w = stem ++ js "er" /\
    (forall st, w_text w = st ++ js "yer" -> sg = st ++ js "i") /\
    (endsWith (w_text w) (js "yer") = false -> sg = stem) /\
    (forall st, w_text w = st ++ js "ger" -> nous = stem ++ js "eons") /\
    (forall st, w_text w = st ++ js "cer" -> nous = st ++ js "çons") /\
    (endsWith (w_text w) (js "ger") = false ->
     endsWith (w_text w) (js "cer") = false -> nous = stem ++ js "ons") /\
    getVerbForms random w n = (vf, (n + 6)%nat) /\
    inf vf = w /\
    map w_text (conjugations vf) =
      [sg ++ js "e"; sg ++ js "es"; nous; stem ++ js "ez"; sg ++ js "ent"] /\
    map w_tags (conjugations vf) =
      [Some [js "Je"; js "Il"; js "Elle"]; Some [js "Tu"]; Some [js "Nous"];
       Some [js "Vous"]; Some [js "Ils"; js "Elles"]] /\
    map w_type (conjugations vf) = [VERB; VERB; VERB; VERB; VERB] /\
    w_text <$> pp vf = Some (stem ++ js "é") /\
    w_type <$> pp vf = Some VERB_PP.
Proof.
  intros Her Hne.
  pose proof Her as Hstem. apply endsWith_true in Hstem as [stem Hstem].
  assert (slice0 (w_text w) 2 = stem) as Hslice.
  { rewrite Hstem. apply (slice0_app stem (js "er")). }
  set (sg := if endsWith (w_text w) (js "yer")
             then slice0 stem 1 ++ js "i" else stem).
  set (nous := if endsWith (w_text w) (js "ger") then stem ++ js "eons"
               else if endsWith (w_text w) (js "cer")
                    then slice0 stem 1 ++ js "çons"
                    else stem ++ js "ons").
  exists stem, sg, nous. eexists.
  split; [exact Hstem|].
  split.
  { intros st Hst. subst sg.
    rewrite (proj2 (endsWith_true _ _) (ex_intro _ st Hst)).
    rewrite (endsWith_er_split _ st 121 Hst stem Hstem).
    by rewrite slice0_snoc. }
  split.
  { intros Hyer. subst sg. by rewrite Hyer. }
  split.
  { intros st Hst. subst nous.
    by rewrite (proj2 (endsWith_true _ _) (ex_intro _ st Hst)). }
  split.
  { intros st Hst. subst nous.
    rewrite (proj2 (endsWith_true _ _) (ex_intro _ st Hst)).
    assert (endsWith (w_text w) (js "ger") = false) as ->.
    { apply endsWith_false. intros st' Hst'. rewrite Hst in Hst'.
      change (js "cer") with ([99] ++ js "er") in Hst'.
      change (js "ger") with ([103] ++ js "er") in Hst'.
      rewrite !app_assoc in Hst'. apply app_inv_tail in Hst'.
      apply app_inj_tail in Hst' as [_ Hc]. discriminate. }
    rewrite (endsWith_er_split _ st 99 Hst stem Hstem).
    by rewrite slice0_snoc. }
  split.
  { intros Hg Hc. subst nous. by rewrite Hg, Hc. }
  unfold getVerbForms.
  rewrite (bool_decide_eq_false_2 (w_text w = js "avoir")).
  2:{ intros E. rewrite E in Her. discriminate. }
  rewrite (bool_decide_eq_false_2 (w_text w = js "être")).
  2:{ intros E. rewrite E in Her. discriminate. }
  rewrite (bool_decide_eq_false_2 (w_text w = js "aller")) by done.
  rewrite Her. cbn [orb].
  unfold generateErVerbs. rewrite Hslice. fold sg. fold nous.
  replace (n + 6)%nat with (S (S (S (S (S (S n)))))) by lia.
  repeat split.
Qed.

End Conjugator.

Lemma getVerbForms_auxiliaries_witness :
  w_text wordAvoir = js "avoir" /\
  getVerbForms fixedRandom wordAvoir 0%nat =
    ({| inf := wordAvoir; pp := Some (avoirParticiple fixedRandom);
        conjugations := avoirForms fixedRandom |}, 0%nat).
Proof.
  split; [reflexivity|].
  apply (proj1 (getVerbForms_auxiliaries fixedRandom wordAvoir 0)).
  reflexivity.
Defined.

(** The claim C2 as worded fails on "Avoir" and "Aller": both match
    their verb when case is ignored, yet "Avoir" gets the empty
    paradigm and "Aller" the generated "-er" forms. *)
Lemma getVerbForms_case_counterexample :
  toLowerCase (w_text wordAvoirCapital) = js "avoir" /\
  getVerbForms fixedRandom wordAvoirCapital 0%nat =
    ({| inf := wordAvoirCapital; pp := None; conjugations := [] |}, 0%nat) /\
  toLowerCase (w_text wordAllerCapital) = js "aller" /\
  map w_text (conjugations (fst (getVerbForms fixedRandom wordAllerCapital 0%nat)))
    = [js "Alle"; js "Alles"; js "Allons"; js "Allez"; js "Allent"] /\
  map w_text (conjugations (fst (getVerbForms fixedRandom wordAllerCapital 0%nat)))
    <> map w_text (allerForms fixedRandom).
Proof.
  repeat split; try (vm_compute; reflexivity). vm_compute. discriminate.
Qed.

Lemma getVerbForms_unsupported_witness :
  (w_text wordDormir <> js "avoir" /\ w_text wordDormir <> js "être" /\
   w_text wordDormir <> js "aller" /\
   endsWith (w_text wordDormir) (js "er") = false) /\
  getVerbForms fixedRandom wordDormir 0%nat =
    ({| inf := wordDormir; pp := None; conjugations := [] |}, 0%nat).
Proof.
  split; [repeat split; vm_compute; congruence|].
  apply (getVerbForms_unsupported fixedRandom wordDormir 0);
    vm_compute; congruence.
Defined.

Lemma getVerbForms_regular_er_witness :
  (endsWith (w_text wordNettoyer) (js "er") = true /\
   w_text wordNettoyer <> js "aller") /\
  exists stem sg nous vf,
    w_text wordNettoyer = stem ++ js "er" /\
    (forall st, w_text wordNettoyer = st ++ js "yer" -> sg = st ++ js "i") /\
    (endsWith (w_text wordNettoyer) (js "yer") = false -> sg = stem) /\
    (forall st, w_text wordNettoyer = st ++ js "ger" -> nous = stem ++ js "eons") /\
    (forall st, w_text wordNettoyer = st ++ js "cer" -> nous = st ++ js "çons") /\
    (endsWith (w_text wordNettoyer) (js "ger") = false ->
     endsWith (w_text wordNettoyer) (js "cer") = false ->
     nous = stem ++ js "ons") /\
    getVerbForms fixedRandom wordNettoyer 0%nat = (vf, (0 + 6)%nat) /\
    inf vf = wordNettoyer /\
    map w_text (conjugations vf) =
      [sg ++ js "e"; sg ++ js "es"; nous; stem ++ js "ez"; sg ++ js "ent"] /\
    map w_tags (conjugations vf) =
      [Some [js "Je"; js "Il"; js "Elle"]; Some [js "Tu"]; Some [js "Nous"];
       Some [js "Vous"]; Some [js "Ils"; js "Elles"]] /\
    map w_type (conjugations vf) = [VERB; VERB; VERB; VERB; VERB] /\
    w_text <$> pp vf = Some (stem ++ js "é") /\
    w_type <$> pp vf = Some VERB_PP.
Proof.
  split; [split; vm_compute; congruence|].
  apply (getVerbForms_regular_er fixedRandom wordNettoyer 0);
    vm_compute; congruence.
Defined.

Example conjugate_nettoyer :
  map w_text (conjugations (fst (getVerbForms fixedRandom wordNettoyer 0%nat)))
    = [js "nettoie"; js "nettoies"; js "nettoyons"; js "nettoyez";
       js "nettoient"].
Proof. vm_compute. reflexivity. Qed.

(** ** The word-form generator *)

Lemma endsWith_endsIn (t suf : jsstring) :
  endsWith t suf = true <-> endsIn t suf.
Proof. apply endsWith_true. Qed.

Lemma endsWith_not_endsIn (t suf : jsstring) :
  endsWith t suf = false <-> ~ endsIn t suf.
Proof. rewrite <- endsWith_endsIn. symmetry. apply not_true_iff_false. Qed.

Lemma tagsInclude_true (w : Word) (t : jsstring) :
  tagsInclude w t = true <-> exists ts, w_tags w = Some ts /\ t ∈ ts.
Proof.
  unfold tagsInclude. destruct (w_tags w) as [ts|].
  - rewrite includes_true. split; [eauto|]. by intros (? & [= <-] & ?).
  - split; [discriminate|]. by intros (? & ? & _).
Qed.

Lemma isFemTag_spec (w : Word) :
  tagsInclude w (js "f") || tagsInclude w (js "feminine") = true
  <-> taggedFeminine w.
Proof.
  rewrite orb_true_iff, !tagsInclude_true. unfold taggedFeminine. split.
  - intros [(ts & H & Hin)|(ts & H & Hin)]; eauto.
  - intros (ts & H & [Hin|Hin]); eauto.
Qed.

Lemma irregularNoun_inv (t : jsstring) :
  irregularNoun t -> t = js "chat" \/ t = js "chien" \/ t = js "sorcier".
Proof.
  intros [t' H]. unfold nounFeminineTable in H.
  repeat (apply elem_of_cons in H as [[= -> ->]|H]; [tauto|]).
  by apply elem_of_nil in H.
Qed.

(** ** The inflection rules determine their result *)

Lemma endsWith_app_suffix (stem suf suf' : jsstring) :
  (length suf' <= length suf)%nat ->
  endsWith (stem ++ suf) suf' = endsWith suf suf'.
Proof.
  intros Hlen. unfold endsWith. rewrite length_app.
  replace (length suf' <=? length stem + length suf)%nat with true
    by (symmetry; apply Nat.leb_le; lia).
  replace (length suf' <=? length suf)%nat with true
    by (symmetry; apply Nat.leb_le; lia).
  simpl. f_equal.
  replace (length stem + length suf - length suf')%nat
    with (length stem + (length suf - length suf'))%nat by lia.
  by rewrite drop_app_add.
Qed.

(** Two readings of one text by its ending that cannot both hold. *)
Ltac suffix_clash :=
  match goal with
  | H : ?s1 ++ ?k1 = ?s2 ++ ?k2 |- _ =>
      first
        [ assert (endsWith (s1 ++ k1) k2 = true) as Hclash
            by (rewrite H; apply endsWith_true; eexists; reflexivity);
          rewrite endsWith_app_suffix in Hclash by (vm_compute; lia);
          vm_compute in Hclash; discriminate Hclash
        | assert (endsWith (s2 ++ k2) k1 = true) as Hclash
            by (rewrite <- H; apply endsWith_true; eexists; reflexivity);
          rewrite endsWith_app_suffix in Hclash by (vm_compute; lia);
          vm_compute in Hclash; discriminate Hclash ]
  | H : ~ endsIn (?s ++ ?k) ?k |- _ =>
      exfalso; apply H; eexists; reflexivity
  | H : ~ endsIn ?t ?k, E : ?t = ?s ++ ?k |- _ =>
      exfalso; apply H; eexists; exact E
  | H : ~ endsIn ?t ?k, E : ?s ++ ?k = ?t |- _ =>
      exfalso; apply H; eexists; symmetry; exact E
  | H : endsIn (?s ++ ?k) ?k' |- _ =>
      apply endsWith_true in H;
      rewrite endsWith_app_suffix in H by (vm_compute; lia);
      vm_compute in H; discriminate H
  end.

Lemma pluralNoun_functional (t a b : jsstring) :
  pluralNoun t a -> pluralNoun t b -> a = b.
Proof.
  intros Ha Hb.
  inversion Ha as [t1 H1|s1|s1|s1|t1 Hs Hx Hz Hau Heu Hal]; subst;
    inversion Hb as [t2 H2 E|s2 E|s2 E|s2 E|t2 Hs' Hx' Hz' Hau' Heu' Hal' E];
    subst; try reflexivity;
    try (apply app_inv_tail in E; by subst);
    try (destruct H1 as [H1|[H1|H1]]; suffix_clash);
    try (destruct H2 as [H2|[H2|H2]]; rewrite <- ?E in H2; suffix_clash);
    try (exfalso; tauto); try suffix_clash.
Qed.

Lemma pluralAdjective_functional (t a b : jsstring) :
  pluralAdjective t a -> pluralAdjective t b -> a = b.
Proof.
  intros Ha Hb.
  inversion Ha as [t1 H1|s1|t1 Hs Hx Hau]; subst;
    inversion Hb as [t2 H2 E|s2 E|t2 Hs' Hx' Hau' E];
    subst; try reflexivity;
    try (apply app_inv_tail in E; by subst);
    try (destruct H1 as [H1|H1]; suffix_clash);
    try (destruct H2 as [H2|H2]; rewrite <- ?E in H2; suffix_clash);
    try (exfalso; tauto); try suffix_clash.
Qed.

Lemma feminineAdjective_functional (t a b : jsstring) :
  feminineAdjective t a -> feminineAdjective t b -> a = b.
Proof.
  intros Ha Hb.
  inversion Ha as [s1|t1 H1]; subst; inversion Hb as [s2 E|t2 H2 E]; subst;
    try reflexivity; try suffix_clash.
Qed.

Lemma nounFeminineTable_functional (t a b : jsstring) :
  (t, a) ∈ nounFeminineTable -> (t, b) ∈ nounFeminineTable -> a = b.
Proof.
  unfold nounFeminineTable. js_eval. rewrite !elem_of_cons, !elem_of_nil.
  intros [Ha|[Ha|[Ha|[]]]] [Hb|[Hb|[Hb|[]]]]; congruence.
Qed.

Lemma feminineNoun_functional (t a b : jsstring) :
  feminineNoun t a -> feminineNoun t b -> a = b.
Proof.
  intros Ha Hb.
  inversion Ha as [t1 a1 H1|s1 H1|s1 H1|s1 H1|s1 H1|t1 H1 Her Hf Hx He]; subst;
    inversion Hb as [t2 b2 H2 E|s2 H2 E|s2 H2 E|s2 H2 E|s2 H2 E
                    |t2 H2 Her' Hf' Hx' He' E];
    subst; try reflexivity;
    try (by eapply nounFeminineTable_functional);
    try (exfalso; (apply H1 || apply H2); eexists; eassumption);
    try (exfalso; rewrite <- ?E in *; (apply H1 || apply H2); eexists;
         eassumption);
    try (apply app_inv_tail in E; by subst);
    try suffix_clash.
Qed.

(** The gender step of the noun branch, isolated from the code. *)
Lemma noun_feminine_step (t : jsstring) :
  feminineNoun t
    (if bool_decide (t = js "chat") then js "chatte"
     else if bool_decide (t = js "chien") then js "chienne"
     else if bool_decide (t = js "sorcier") then js "sorcière"
     else if endsWith t (js "er") then slice0 t 2 ++ js "ère"
     else if endsWith t (js "f") then slice0 t 1 ++ js "ve"
     else if endsWith t (js "x") then slice0 t 1 ++ js "se"
     else if negb (endsWith t (js "e")) then t ++ js "e"
     else t).
Proof.
  destruct (bool_decide_reflect (t = js "chat")) as [->|H1].
  { apply fem_irregular. set_solver. }
  destruct (bool_decide_reflect (t = js "chien")) as [->|H2].
  { apply fem_irregular. set_solver. }
  destruct (bool_decide_reflect (t = js "sorcier")) as [->|H3].
  { apply fem_irregular. set_solver. }
  assert (~ irregularNoun t) as Hirr.
  { intros H. apply irregularNoun_inv in H. tauto. }
  destruct (endsWith t (js "er")) eqn:Eer.
  { apply endsWith_true in Eer as [stem ->].
    rewrite (slice0_suffix stem (js "er") 2) by reflexivity. by apply fem_er. }
  destruct (endsWith t (js "f")) eqn:Ef.
  { apply endsWith_true in Ef as [stem ->].
    rewrite (slice0_suffix stem (js "f") 1) by reflexivity. by apply fem_f. }
  destruct (endsWith t (js "x")) eqn:Ex.
  { apply endsWith_true in Ex as [stem ->].
    rewrite (slice0_suffix stem (js "x") 1) by reflexivity. by apply fem_x. }
  destruct (endsWith t (js "e")) eqn:Ee; simpl.
  { apply endsWith_true in Ee as [stem ->]. by apply fem_e. }
  apply fem_append; try done; by apply endsWith_not_endsIn.
Qed.

(** The plural step of the noun branch, isolated from the code. *)
Lemma noun_plural_step (t : jsstring) :
  pluralNoun t
    (if endsWith t (js "s") || endsWith t (js "x") || endsWith t (js "z")
     then t
     else if endsWith t (js "au") || endsWith t (js "eu") then t ++ js "x"
     else if endsWith t (js "al") then slice0 t 2 ++ js "aux"
     else t ++ js "s").
Proof.
  destruct (endsWith t (js "s")) eqn:Es; simpl.
  { apply pl_unchanged. left. by apply endsWith_endsIn. }
  destruct (endsWith t (js "x")) eqn:Ex; simpl.
  { apply pl_unchanged. right. left. by apply endsWith_endsIn. }
  destruct (endsWith t (js "z")) eqn:Ez; simpl.
  { apply pl_unchanged. right. right. by apply endsWith_endsIn. }
  destruct (endsWith t (js "au")) eqn:Eau; simpl.
  { apply endsWith_true in Eau as [stem ->]. rewrite <- app_assoc.
    apply pl_au. }
  destruct (endsWith t (js "eu")) eqn:Eeu; simpl.
  { apply endsWith_true in Eeu as [stem ->]. rewrite <- app_assoc.
    apply pl_eu. }
  destruct (endsWith t (js "al")) eqn:Eal.
  { apply endsWith_true in Eal as [stem ->].
    rewrite (slice0_suffix stem (js "al") 2) by reflexivity. apply pl_al. }
  apply pl_s; by apply endsWith_not_endsIn.
Qed.

(** C8: for a noun the gender step comes first (only towards the
    feminine and only when the word is not tagged feminine: irregular
    lookup, "-er" to "-ère", "-f" to "-ve", "-x" to "-se", else an "e"
    unless one is there) and the plural step works on its result
    (unchanged after s, x, z; "x" after "-au"/"-eu"; "-al" to "-aux";
    else "s"); the plural of a stem ending in s, x or z is the stem. *)
Theorem generateVariations_noun (w : Word) (gender : Gender) (number : Number) :
  w_type w = NOUN ->
  (exists stem,
     nounGenderStep w gender stem /\
     w_text (generateVariations w gender N_s) = stem /\
     nounNumberStep number stem (w_text (generateVariations w gender number))) /\
  (endsIn (w_text (generateVariations w gender N_s)) (js "s") \/
   endsIn (w_text (generateVariations w gender N_s)) (js "x") \/
   endsIn (w_text (generateVariations w gender N_s)) (js "z") ->
   w_text (generateVariations w gender N_pl)
   = w_text (generateVariations w gender N_s)).
Proof.
  intros Hty. unfold generateVariations. rewrite Hty. cbn [w_text].
  set (isFemTag := tagsInclude w (js "f") || tagsInclude w (js "feminine")).
  set (stem := match gender with
               | G_f => if negb isFemTag then _ else w_text w
               | G_m => w_text w
               end).
  split.
  - exists stem. split; [|split; [reflexivity|]].
    + subst stem. destruct gender; [constructor|].
      destruct isFemTag eqn:E; subst isFemTag; simpl.
      * apply ngs_already. by apply isFemTag_spec.
      * apply ngs_feminine.
        -- rewrite <- isFemTag_spec. by rewrite E.
        -- apply noun_feminine_step.
    + destruct number; constructor. apply noun_plural_step.
  - intros H.
    assert (endsWith stem (js "s") || endsWith stem (js "x")
            || endsWith stem (js "z") = true) as ->; [|reflexivity].
    rewrite !orb_true_iff, !endsWith_endsIn. tauto.
Qed.

Lemma generateVariations_noun_witness :
  w_type wordCheval = NOUN /\
  (exists stem,
     nounGenderStep wordCheval G_m stem /\
     w_text (generateVariations wordCheval G_m N_s) = stem /\
     nounNumberStep N_pl stem (w_text (generateVariations wordCheval G_m N_pl))) /\
  (endsIn (w_text (generateVariations wordCheval G_m N_s)) (js "s") \/
   endsIn (w_text (generateVariations wordCheval G_m N_s)) (js "x") \/
   endsIn (w_text (generateVariations wordCheval G_m N_s)) (js "z") ->
   w_text (generateVariations wordCheval G_m N_pl)
   = w_text (generateVariations wordCheval G_m N_s)).
Proof.
  split; [reflexivity|].
  apply (generateVariations_noun wordCheval G_m N_pl). reflexivity.
Defined.

Example inflect_cheval :
  w_text (generateVariations wordCheval G_m N_pl) = js "chevaux".
Proof. reflexivity. Qed.

Example inflect_sorcier :
  w_text (generateVariations
            (wordAt 0 (js "sorcier") NOUN (js "wizard") [js "m"; js "mutable"])
            G_f N_pl) = js "sorcières".
Proof. reflexivity. Qed.






(** C4, as the code has it: a noun comes back with exactly the two tags
    of the resolved gender and number, every earlier tag dropped; an
    adjective comes back with all its earlier tags followed by the two
    new ones; identifier, type and translation are the input's. *)
Theorem generateVariations_tags (w : Word) (gender : Gender) (number : Number) :
  let out := generateVariations w gender number in
  (w_type w = NOUN ->
   w_tags out = Some [genderTag gender; numberTag number]) /\
  (w_type w = ADJECTIVE ->
   w_tags out
   = Some (default [] (w_tags w) ++ [genderTag gender; numberTag number])) /\
  w_translation out = w_translation w /\
  w_type out = w_type w /\
  w_id out = w_id w /\
  (genderTag gender = js "feminine" \/ genderTag gender = js "masculine") /\
  (numberTag number = js "plural" \/ numberTag number = js "singular").
Proof.
  cbv zeta. unfold generateVariations.
  split; [by intros ->|]. split; [by intros ->|].
  split; [by destruct (w_type w)|].
  split; [by destruct (w_type w) eqn:E|].
  split; [by destruct (w_type w)|].
  split; [destruct gender | destruct number]; (by left) || (by right).
Qed.

Lemma generateVariations_tags_witness :
  let out := generateVariations wordChat G_f N_s in
  w_type wordChat = NOUN /\
  w_tags out = Some [js "feminine"; js "singular"] /\
  w_translation out = w_translation wordChat.
Proof.
  cbv zeta. split; [reflexivity|].
  split.
  - apply (proj1 (generateVariations_tags wordChat G_f N_s)). reflexivity.
  - apply (generateVariations_tags wordChat G_f N_s).
Defined.

(** The claim C4 as worded fails both ways: the noun "chat", tagged
    'm' and 'mutable', loses 'mutable' when inflected, and the adjective
    "grand", already tagged 'masculine' and 'singular', keeps both tags
    when inflected to the feminine plural. *)
Lemma generateVariations_tags_counterexample :
  w_type wordChat = NOUN /\
  w_tags wordChat = Some [js "m"; js "mutable"] /\
  w_tags (generateVariations wordChat G_f N_s)
  = Some [js "feminine"; js "singular"] /\
  ~ tagsInclude (generateVariations wordChat G_f N_s) (js "mutable") = true /\
  w_type wordGrandMasculine = ADJECTIVE /\
  w_tags wordGrandMasculine = Some [js "masculine"; js "singular"] /\
  w_tags (generateVariations wordGrandMasculine G_f N_pl)
  = Some [js "masculine"; js "singular"; js "feminine"; js "plural"].
Proof.
  repeat split; try reflexivity. vm_compute. discriminate.
Qed.

(** ** Slot-level scan against string-level pass *)

(** ** The string pass on a text without white space *)

Lemma wsPlus_noWhiteSpace (k : jsstring -> option jsstring) (s : jsstring) :
  noWhiteSpace s -> wsPlus k s = None.
Proof.
  destruct s as [|c r]; [reflexivity|]. intros H.
  apply Forall_cons in H as [Hc _]. simpl. by rewrite Hc.
Qed.

Lemma noWhiteSpace_drop (n : nat) (s : jsstring) :
  noWhiteSpace s -> noWhiteSpace (drop n s).
Proof. apply Forall_drop. Qed.

Lemma tryTriggers_noWhiteSpace (ts : list jsstring) (s : jsstring) :
  noWhiteSpace s -> tryTriggers ts s = None.
Proof.
  intros H. induction ts as [|t ts IH]; [reflexivity|]. simpl.
  destruct (literalCI t s) as [p1|]; [|exact IH].
  by rewrite (wsPlus_noWhiteSpace _ _ (noWhiteSpace_drop (length p1) s H)).
Qed.

Lemma elisionRegex_noWhiteSpace (prev : option N) (s : jsstring) :
  noWhiteSpace s -> elisionRegex prev s = None.
Proof.
  intros H. unfold elisionRegex. rewrite (tryTriggers_noWhiteSpace _ _ H).
  by destruct (wordBoundary prev s).
Qed.

Lemma siIlRegex_noWhiteSpace (prev : option N) (s : jsstring) :
  noWhiteSpace s -> siIlRegex prev s = None.
Proof.
  intros H. unfold siIlRegex.
  destruct (wordBoundary prev s); [|reflexivity].
  destruct (literalCI (js "si") s) as [p1|]; [|reflexivity].
  by rewrite (wsPlus_noWhiteSpace _ _ (noWhiteSpace_drop (length p1) s H)).
Qed.

Lemma replaceScan_no_match
    (attempt : option N -> jsstring -> option (nat * jsstring)) :
  (forall prev s, noWhiteSpace s -> attempt prev s = None) ->
  forall s prev, noWhiteSpace s -> replaceScan attempt prev 0 s = s.
Proof.
  intros Hno s. induction s as [|c r IH]; intros prev H; [reflexivity|].
  simpl. rewrite (Hno prev (c :: r) H).
  apply Forall_cons in H as [_ Hr]. by rewrite (IH (Some c) Hr).
Qed.






(** Outside the claims: the two passes also differ in the class of the
    second word.  The string pass contracts before "î" and after "ce"
    before any "e", the slot-level scan does not. *)
Remark vowel_class_divergence :
  mergedTextOf (pairSlots (js "le") (js "île")) = None /\
  applyFrenchElision (slotTexts (pairSlots (js "le") (js "île"))) = js "l'île" /\
  mergedTextOf (pairSlots (js "ce") (js "elle")) = None /\
  applyFrenchElision (slotTexts (pairSlots (js "ce") (js "elle"))) = js "c'elle".
Proof. repeat split; vm_compute; reflexivity. Qed.

(** * Further properties of the engine *)

(** ** The slot-level scan: bounds, frame, stability *)

Lemma candidate_index_lt (slots : list SentenceSlot) (c : ElisionCandidate) :
  findElisionCandidate slots = Some c -> (S (index c) < length slots)%nat.
Proof.
  intros H. apply findElisionCandidate_pair in H as (a & b & _ & Hb & _).
  by apply lookup_lt_Some in Hb.
Qed.

(** X1: a candidate's index and its successor are positions of the
    sequence; a sequence of fewer than two slots has no candidate. *)
Theorem findElisionCandidate_bounds (slots : list SentenceSlot) :
  (forall c, findElisionCandidate slots = Some c ->
             (S (index c) < length slots)%nat) /\
  ((length slots < 2)%nat -> findElisionCandidate slots = None).
Proof.
  split; [apply candidate_index_lt|]. intros Hlen.
  destruct (findElisionCandidate slots) as [c|] eqn:E; [|reflexivity].
  apply candidate_index_lt in E. lia.
Qed.

Lemma findElisionCandidate_bounds_witness :
  findElisionCandidate scenarioSlots = Some scenarioCandidate /\
  (S (index scenarioCandidate) < length scenarioSlots)%nat.
Proof.
  split; [vm_compute; reflexivity|].
  apply (proj1 (findElisionCandidate_bounds scenarioSlots) scenarioCandidate).
  vm_compute; reflexivity.
Defined.

(** X2: the merged slot keeps the first slot's identifier and takes type and
    placeholder from the second; the merged word takes its type from the
    second word, joins the two translations with " + ", the two
    identifiers with "+", and lists the first word's tags before the
    second's; the merged slot has no [fixed] flag. *)
Theorem findElisionCandidate_frame (slots : list SentenceSlot)
    (c : ElisionCandidate) :
  findElisionCandidate slots = Some c ->
  exists a b wa wb mw,
    slots !! index c = Some a /\ slots !! S (index c) = Some b /\
    s_value a = Some wa /\ s_value b = Some wb /\
    s_value (mergedSlot c) = Some mw /\
    s_id (mergedSlot c) = s_id a /\
    s_type (mergedSlot c) = s_type b /\
    s_placeholder (mergedSlot c) = s_placeholder b /\
    s_fixed (mergedSlot c) = None /\
    w_id mw = w_id wa ++ js "+" ++ w_id wb /\
    w_type mw = w_type wb /\
    w_translation mw = w_translation wa ++ js " + " ++ w_translation wb /\
    w_tags mw = Some (default [] (w_tags wa) ++ default [] (w_tags wb)).
Proof.
  intros H. apply findElisionCandidate_pair in H as (a & b & Ha & Hb & _ & Hm).
  unfold mergeSlots in Hm.
  destruct (s_value a) as [wa|] eqn:Ewa; [|discriminate].
  destruct (s_value b) as [wb|] eqn:Ewb; [|discriminate].
  injection Hm as Hm. rewrite <- Hm.
  exists a, b, wa, wb. eexists. repeat split; try done.
Qed.

Lemma findElisionCandidate_frame_witness :
  findElisionCandidate scenarioSlots = Some scenarioCandidate /\
  exists a b wa wb mw,
    scenarioSlots !! index scenarioCandidate = Some a /\
    scenarioSlots !! S (index scenarioCandidate) = Some b /\
    s_value a = Some wa /\ s_value b = Some wb /\
    s_value (mergedSlot scenarioCandidate) = Some mw /\
    s_id (mergedSlot scenarioCandidate) = s_id a /\
    s_type (mergedSlot scenarioCandidate) = s_type b /\
    s_placeholder (mergedSlot scenarioCandidate) = s_placeholder b /\
    s_fixed (mergedSlot scenarioCandidate) = None /\
    w_id mw = w_id wa ++ js "+" ++ w_id wb /\
    w_type mw = w_type wb /\
    w_translation mw = w_translation wa ++ js " + " ++ w_translation wb /\
    w_tags mw = Some (default [] (w_tags wa) ++ default [] (w_tags wb)).
Proof.
  split; [vm_compute; reflexivity|].
  apply (findElisionCandidate_frame scenarioSlots scenarioCandidate).
  vm_compute; reflexivity.
Defined.

(** A trigger begins with a consonant and has at least two letters. *)
Lemma trigger_shape (w : jsstring) :
  toLowerCase w ∈ specTriggerSet ->
  exists c0 c1 r, w = c0 :: c1 :: r /\ lowerUnit c0 ∉ specVowelClass.
Proof.
  unfold specTriggerSet, specVowelClass. js_eval. intros H.
  destruct w as [|c0 [|c1 r]].
  - exfalso. simpl in H.
    repeat (apply elem_of_cons in H as [H|H]; [discriminate|]).
    by apply elem_of_nil in H.
  - exfalso. simpl in H.
    repeat (apply elem_of_cons in H as [H|H]; [discriminate|]).
    by apply elem_of_nil in H.
  - exists c0, c1, r. split; [reflexivity|]. simpl in H.
    repeat (apply elem_of_cons in H as [H|H];
            [injection H as -> _;
             rewrite !elem_of_cons, elem_of_nil; intuition discriminate|]).
    by apply elem_of_nil in H.
Qed.

(** X3: a merged slot takes part in no further merge, neither as the first
    nor as the second slot of a pair: its text holds an apostrophe, so
    it is no trigger, and it begins with the trigger's consonant. *)
Theorem merged_slot_inert (slots : list SentenceSlot) (c : ElisionCandidate) :
  findElisionCandidate slots = Some c ->
  forall x, shouldElide (mergedSlot c) x = false /\
            shouldElide x (mergedSlot c) = false.
Proof.
  intros H x.
  apply findElisionCandidate_pair in H as (a & b & _ & _ & Hs & Hm).
  apply shouldElide_spec in Hs as (wa & wb & Hwa & Hwb & Ht & _).
  apply mergeSlots_text in Hm as (wa' & wb' & mw & Hwa' & Hwb' & Hmw & Htext).
  rewrite Hwa in Hwa'. injection Hwa' as <-.
  destruct (trigger_shape _ Ht) as (c0 & c1 & r & Hw & Hc0).
  split.
  - apply not_true_iff_false. intros Hq.
    apply shouldElide_spec in Hq as (mw' & xw & Hmw' & _ & Ht' & _).
    rewrite Hmw in Hmw'. injection Hmw' as <-.
    apply trigger_no_apostrophe in Ht'. apply Ht'. rewrite Htext.
    apply elem_of_app. right. by left.
  - apply not_true_iff_false. intros Hq.
    apply shouldElide_spec in Hq as (xw & mw' & _ & Hmw' & _ & Hv & _).
    rewrite Hmw in Hmw'. injection Hmw' as <-.
    destruct Hv as (v & rest & Hv & Hin). apply Hc0.
    rewrite Htext, Hw in Hv. unfold slice0 in Hv.
    simpl length in Hv. rewrite Nat.sub_succ, Nat.sub_0_r in Hv.
    simpl in Hv. by injection Hv as -> _.
Qed.

Lemma merged_slot_inert_witness :
  findElisionCandidate scenarioSlots = Some scenarioCandidate /\
  shouldElide (mergedSlot scenarioCandidate) (slotOf 1 wordAi) = false /\
  shouldElide (slotOf 1 wordAi) (mergedSlot scenarioCandidate) = false.
Proof.
  split; [vm_compute; reflexivity|].
  apply (merged_slot_inert scenarioSlots scenarioCandidate).
  vm_compute; reflexivity.
Defined.

(** ** The merge loop *)

Lemma mergeStep_short (slots : list SentenceSlot) :
  (length slots <= 1)%nat -> mergeStep slots = None.
Proof.
  intros H. unfold mergeStep.
  destruct (findElisionCandidate slots) as [c|] eqn:E; [|reflexivity].
  apply candidate_index_lt in E. lia.
Qed.

Lemma mergeLoop_fixed_tight (fuel : nat) (slots : list SentenceSlot) :
  (length slots <= S fuel)%nat -> mergeStep (mergeLoop fuel slots) = None.
Proof.
  revert slots. induction fuel as [|fuel IH]; intros slots Hlen.
  - by apply mergeStep_short.
  - simpl. destruct (mergeStep slots) as [slots'|] eqn:E; [|exact E].
    apply IH. apply mergeStep_length in E. lia.
Qed.

Lemma mergeLoop_more (fuel k : nat) (slots : list SentenceSlot) :
  mergeStep (mergeLoop fuel slots) = None ->
  mergeLoop (fuel + k) slots = mergeLoop fuel slots.
Proof.
  revert slots. induction fuel as [|fuel IH]; intros slots H.
  - simpl in H. destruct k; [reflexivity|]. simpl. by rewrite H.
  - simpl in *. destruct (mergeStep slots) as [slots'|]; [by apply IH|].
    reflexivity.
Qed.

Lemma mergeLoop_length (fuel : nat) (slots : list SentenceSlot) :
  (length (mergeLoop fuel slots) <= length slots)%nat /\
  (slots <> [] -> mergeLoop fuel slots <> []).
Proof.
  revert slots. induction fuel as [|fuel IH]; intros slots; [by split|].
  simpl. destruct (mergeStep slots) as [slots'|] eqn:E; [|by split].
  pose proof E as Hlen. apply mergeStep_length in Hlen.
  destruct (IH slots') as [Hle Hne]. split; [lia|]. intros _. apply Hne.
  unfold mergeStep in E.
  destruct (findElisionCandidate slots) as [c|]; [|discriminate].
  injection E as <-. unfold splice2. by destruct (take (index c) slots).
Qed.

(** X4: the merge loop stops before it has made as many steps as there are
    slots: with that much fuel it ends in a sequence without candidate,
    more fuel changes nothing, the result is no longer than the input
    and is not empty unless the input is. *)
Theorem mergeLoop_reaches_fixed_point (fuel : nat)
    (slots : list SentenceSlot) :
  (length slots <= S fuel)%nat ->
  findElisionCandidate (mergeLoop fuel slots) = None /\
  mergeLoop fuel slots = mergeToFixedPoint slots /\
  (length (mergeLoop fuel slots) <= length slots)%nat /\
  (slots <> [] -> mergeLoop fuel slots <> []).
Proof.
  intros Hlen. pose proof (mergeLoop_fixed_tight fuel slots Hlen) as Hfix.
  split.
  { unfold mergeStep in Hfix.
    by destruct (findElisionCandidate (mergeLoop fuel slots)). }
  split; [|apply mergeLoop_length].
  unfold mergeToFixedPoint.
  destruct (Nat.le_ge_cases fuel (length slots)) as [Hle|Hge].
  - replace (length slots) with (fuel + (length slots - fuel))%nat by lia.
    symmetry. by apply mergeLoop_more.
  - replace fuel with (length slots + (fuel - length slots))%nat at 1 by lia.
    apply mergeLoop_more. apply mergeLoop_fixed. lia.
Qed.

Lemma mergeLoop_reaches_fixed_point_witness :
  (length scenarioSlots <= 4)%nat /\
  findElisionCandidate (mergeLoop 3 scenarioSlots) = None /\
  mergeLoop 3 scenarioSlots = mergeToFixedPoint scenarioSlots /\
  (length (mergeLoop 3 scenarioSlots) <= length scenarioSlots)%nat /\
  (scenarioSlots <> [] -> mergeLoop 3 scenarioSlots <> []).
Proof.
  split; [vm_compute; lia|].
  apply (mergeLoop_reaches_fixed_point 3 scenarioSlots). vm_compute. lia.
Defined.

Lemma findElisionFrom_app (slots extra : list SentenceSlot) (i : nat)
    (c : ElisionCandidate) :
  findElisionFrom i slots = Some c ->
  findElisionFrom i (slots ++ extra) = Some c.
Proof.
  revert i. induction slots as [|current rest IH]; intros i H; [discriminate|].
  destruct rest as [|next rest']; [discriminate|].
  simpl in *. destruct (shouldElide current next); [exact H|].
  by apply IH.
Qed.

(** X5: slots appended behind a sequence do not change its candidate, so a
    word added while the merge animation runs leaves the pending merge
    in place: the end of the animation splices the candidate found
    before it and keeps the appended slots behind. *)
Theorem finishMerge_after_append (slots extra : list SentenceSlot)
    (c : ElisionCandidate) :
  findElisionCandidate slots = Some c ->
  findElisionCandidate (slots ++ extra) = Some c /\
  finishMerge c (slots ++ extra)
  = splice2 slots (index c) (mergedSlot c) ++ extra /\
  Some (finishMerge c slots) = mergeStep slots.
Proof.
  intros H. pose proof (candidate_index_lt _ _ H) as Hlt.
  assert (findElisionCandidate (slots ++ extra) = Some c) as Happ
    by (by apply findElisionFrom_app).
  split; [exact Happ|]. split.
  - unfold finishMerge. rewrite Happ, bool_decide_eq_true_2 by done.
    unfold splice2. rewrite take_app_le, drop_app_le by lia.
    by rewrite <- app_assoc.
  - unfold finishMerge, mergeStep. by rewrite H, bool_decide_eq_true_2.
Qed.

Lemma finishMerge_after_append_witness :
  findElisionCandidate scenarioSlots = Some scenarioCandidate /\
  findElisionCandidate (scenarioSlots ++ aujourdhuiSlots)
  = Some scenarioCandidate /\
  finishMerge scenarioCandidate (scenarioSlots ++ aujourdhuiSlots)
  = splice2 scenarioSlots (index scenarioCandidate)
      (mergedSlot scenarioCandidate) ++ aujourdhuiSlots /\
  Some (finishMerge scenarioCandidate scenarioSlots) = mergeStep scenarioSlots.
Proof.
  split; [vm_compute; reflexivity|].
  apply (finishMerge_after_append scenarioSlots aujourdhuiSlots
           scenarioCandidate).
  vm_compute; reflexivity.
Defined.

(** ** The string pass *)

(** X6: a text without white space comes back unchanged: both expressions
    need white space between the trigger and the next word. *)
Theorem applyFrenchElision_single_word (w : jsstring) :
  noWhiteSpace w -> applyFrenchElision w = w.
Proof.
  intros H. unfold applyFrenchElision, replaceAll.
  rewrite (replaceScan_no_match elisionRegex elisionRegex_noWhiteSpace w None H).
  exact (replaceScan_no_match siIlRegex siIlRegex_noWhiteSpace w None H).
Qed.

Lemma applyFrenchElision_single_word_witness :
  noWhiteSpace (js "jusqu'ami") /\
  applyFrenchElision (js "jusqu'ami") = js "jusqu'ami".
Proof.
  assert (noWhiteSpace (js "jusqu'ami")) as H by (repeat constructor).
  split; [exact H|]. exact (applyFrenchElision_single_word _ H).
Defined.

(** An attempt is bounded when its match lies inside the text, is not
    empty, and is not shorter than its replacement. *)
Lemma replaceScan_length
    (attempt : option N -> jsstring -> option (nat * jsstring)) :
  (forall prev s len rep, attempt prev s = Some (len, rep) ->
     (1 <= len <= length s)%nat /\ (length rep <= len)%nat) ->
  forall s prev skip, (skip <= length s)%nat ->
    (length (replaceScan attempt prev skip s) + skip <= length s)%nat.
Proof.
  intros Hb s. induction s as [|c r IH]; intros prev skip Hskip.
  - simpl in *. lia.
  - simpl. destruct skip as [|k].
    + destruct (attempt prev (c :: r)) as [[len rep]|] eqn:E.
      * destruct (Hb _ _ _ _ E) as [[H1 H2] H3]. simpl in H2.
        rewrite length_app.
        pose proof (IH (Some c) (len - 1)%nat ltac:(lia)). lia.
      * simpl. pose proof (IH (Some c) 0%nat ltac:(lia)). lia.
    + simpl in Hskip. pose proof (IH (Some c) k ltac:(lia)). lia.
Qed.

Lemma literalCI_length (lit s p : jsstring) :
  literalCI lit s = Some p ->
  p = take (length lit) s /\ length p = length lit /\
  (length lit <= length s)%nat.
Proof.
  unfold literalCI. case_bool_decide as E; [|discriminate].
  intros [= <-]. split; [reflexivity|].
  apply (f_equal length) in E. rewrite !length_map in E.
  split; [exact E|]. rewrite length_take in E. lia.
Qed.

Lemma classCI_length (cls s p : jsstring) :
  classCI cls s = Some p -> (length p = 1 /\ 1 <= length s)%nat.
Proof.
  unfold classCI. destruct s as [|c r]; [discriminate|].
  destruct (existsb _ cls); [|discriminate]. intros [= <-]. simpl. lia.
Qed.

Lemma wsPlus_length (k : jsstring -> option jsstring) (s x : jsstring)
    (n : nat) :
  (forall r y, k r = Some y -> (length y <= length r)%nat) ->
  wsPlus k s = Some (n, x) -> (1 <= n)%nat /\ (n + length x <= length s)%nat.
Proof.
  intros Hk. revert n. induction s as [|c r IH]; intros n H; [discriminate|].
  simpl in H. destruct (isWhiteSpace c); [|discriminate].
  destruct (wsPlus k r) as [[m y]|].
  - injection H as <- <-. destruct (IH m eq_refl). simpl. lia.
  - destruct (k r) as [y|] eqn:Ek; [|discriminate]. injection H as <- <-.
    apply Hk in Ek. simpl. lia.
Qed.

Lemma elideCallback_length (matched p1 p2 : jsstring) :
  (length (elideCallback matched p1 p2)
   <= Nat.max (length matched) (length p1 - 1 + 1 + length p2))%nat.
Proof.
  unfold elideCallback, slice0.
  repeat match goal with
         | |- context [if ?b then _ else _] => destruct b
         end;
    rewrite ?length_app, ?length_take; simpl; lia.
Qed.

Lemma tryTriggers_bounded (ts : list jsstring) (s rep : jsstring) (len : nat) :
  tryTriggers ts s = Some (len, rep) ->
  (1 <= len <= length s)%nat /\ (length rep <= len)%nat.
Proof.
  induction ts as [|t ts IH]; [discriminate|]. simpl.
  destruct (literalCI t s) as [p1|] eqn:El; [|exact IH].
  destruct (wsPlus (classCI regexVowels) (drop (length p1) s))
    as [[n p2]|] eqn:Ew; [|exact IH].
  intros [= <- <-].
  apply literalCI_length in El as (_ & Hp1 & Hts).
  apply wsPlus_length in Ew as [Hn Hw].
  2:{ intros r y Hy. apply classCI_length in Hy. lia. }
  rewrite length_drop in Hw.
  pose proof (elideCallback_length
                (take (length p1 + n + length p2) s) p1 p2) as Hc.
  rewrite length_take in Hc. lia.
Qed.

Lemma elisionRegex_bounded (prev : option N) (s rep : jsstring) (len : nat) :
  elisionRegex prev s = Some (len, rep) ->
  (1 <= len <= length s)%nat /\ (length rep <= len)%nat.
Proof.
  unfold elisionRegex. destruct (wordBoundary prev s); [|discriminate].
  apply tryTriggers_bounded.
Qed.

Lemma siIlRegex_bounded (prev : option N) (s rep : jsstring) (len : nat) :
  siIlRegex prev s = Some (len, rep) ->
  (1 <= len <= length s)%nat /\ (length rep <= len)%nat.
Proof.
  unfold siIlRegex. destruct (wordBoundary prev s); [|discriminate].
  destruct (literalCI (js "si") s) as [p1|] eqn:El; [|discriminate].
  destruct (wsPlus (literalCI (js "il")) (drop (length p1) s))
    as [[n p2]|] eqn:Ew; [|discriminate].
  intros [= <- <-].
  apply literalCI_length in El as (_ & Hp1 & Hts).
  apply wsPlus_length in Ew as [Hn Hw].
  2:{ intros r y Hy. apply literalCI_length in Hy as (_ & -> & ?). lia. }
  rewrite length_drop in Hw.
  change (length (js "si")) with 2%nat in *. simpl length. lia.
Qed.

(** X7: the string pass never makes a sentence longer: every contraction
    drops the trigger's last letter and the white space behind it and
    puts one apostrophe in their place. *)
Theorem applyFrenchElision_length (sentence : jsstring) :
  (length (applyFrenchElision sentence) <= length sentence)%nat.
Proof.
  unfold applyFrenchElision, replaceAll.
  pose proof (replaceScan_length elisionRegex
                (fun prev s len rep => elisionRegex_bounded prev s rep len)
                sentence None 0%nat ltac:(lia)) as H1.
  pose proof (replaceScan_length siIlRegex
                (fun prev s len rep => siIlRegex_bounded prev s rep len)
                (replaceScan elisionRegex None 0 sentence) None 0%nat
                ltac:(lia)) as H2.
  lia.
Qed.

(** ** The two passes on a pair of words *)


















(** Where the two passes part on "si": with a capital "S" the slot-level
    merge keeps it and the string pass writes a small one. *)
Remark capital_si_divergence :
  mergedTextOf (pairSlots (js "Si") (js "il")) = Some (js "S'il") /\
  applyFrenchElision (slotTexts (pairSlots (js "Si") (js "il"))) = js "s'il".
Proof. split; vm_compute; reflexivity. Qed.

(** ** Inflecting twice *)

Lemma endsWith_app_self (t suf : jsstring) : endsWith (t ++ suf) suf = true.
Proof. apply endsWith_true. by exists t. Qed.

(** The plural step of the noun branch ends in s, x or z. *)
Lemma noun_plural_ending (t : jsstring) :
  let p := if endsWith t (js "s") || endsWith t (js "x") || endsWith t (js "z")
           then t
           else if endsWith t (js "au") || endsWith t (js "eu")
                then t ++ js "x"
                else if endsWith t (js "al") then slice0 t 2 ++ js "aux"
                     else t ++ js "s" in
  endsWith p (js "s") || endsWith p (js "x") || endsWith p (js "z") = true.
Proof.
  cbv zeta.
  destruct (endsWith t (js "s") || endsWith t (js "x") || endsWith t (js "z"))
    eqn:E; [exact E|].
  destruct (endsWith t (js "au") || endsWith t (js "eu")).
  { by rewrite (endsWith_app_self t (js "x")), orb_true_r. }
  destruct (endsWith t (js "al")).
  { change (js "aux") with (js "au" ++ js "x"). rewrite app_assoc.
    by rewrite (endsWith_app_self _ (js "x")), orb_true_r. }
  by rewrite (endsWith_app_self t (js "s")).
Qed.

(** X9: inflecting a noun a second time for the same gender and number
    changes nothing: the tag 'feminine' of the first pass blocks a
    second feminine ending and a plural already ends in s, x or z. *)
Theorem generateVariations_noun_idempotent (w : Word) (gender : Gender)
    (number : Number) :
  w_type w = NOUN ->
  generateVariations (generateVariations w gender number) gender number
  = generateVariations w gender number.
Proof.
  intros Hty.
  assert (w_type (generateVariations w gender number) = NOUN) as Hty1
    by (unfold generateVariations; by rewrite Hty).
  assert (w_tags (generateVariations w gender number)
          = Some [genderTag gender; numberTag number]) as Htags1
    by (unfold generateVariations; by rewrite Hty).
  assert (number = N_pl ->
          endsWith (w_text (generateVariations w gender number)) (js "s")
          || endsWith (w_text (generateVariations w gender number)) (js "x")
          || endsWith (w_text (generateVariations w gender number)) (js "z")
          = true) as Hpl.
  { intros ->. unfold generateVariations. rewrite Hty. cbn [w_text].
    apply noun_plural_ending. }
  generalize dependent (generateVariations w gender number).
  intros [i t ty tr tags] Hty1 Htags1 Hpl. simpl in *. subst ty tags.
  unfold generateVariations. cbn [w_type w_text w_id w_translation].
  unfold tagsInclude. cbn [w_tags].
  destruct gender, number;
    repeat match goal with
           | |- context [includes ?l ?x] =>
               let b := eval vm_compute in (includes l x) in
               change (includes l x) with b
           end;
    cbn [orb negb]; try (rewrite (Hpl eq_refl)); reflexivity.
Qed.

Lemma generateVariations_noun_idempotent_witness :
  w_type wordChat = NOUN /\
  generateVariations (generateVariations wordChat G_f N_pl) G_f N_pl
  = generateVariations wordChat G_f N_pl.
Proof.
  split; [reflexivity|].
  apply (generateVariations_noun_idempotent wordChat G_f N_pl). reflexivity.
Defined.











Example inflect_grand_twice :
  w_text (generateVariations (generateVariations wordGrand G_f N_pl) G_f N_pl)
  = js "grandeses".
Proof. vm_compute. reflexivity. Qed.

(** ** The shape of a conjugation result *)

Section ConjugatorShape.

Variable random : nat -> jsstring.

(** The three table branches of [getVerbForms]. *)
Lemma getVerbForms_tables (w : Word) (n : nat) :
  (w_text w = js "avoir" ->
   getVerbForms random w n =
     ({| inf := w; pp := Some (avoirParticiple random);
         conjugations := avoirForms random |}, n)) /\
  (w_text w = js "être" ->
   getVerbForms random w n =
     ({| inf := w; pp := Some (etreParticiple random);
         conjugations := etreForms random |}, n)) /\
  (w_text w = js "aller" ->
   getVerbForms random w n =
     ({| inf := w; pp := Some (allerParticiple random);
         conjugations := allerForms random |}, n)).
Proof.
  unfold getVerbForms. repeat split; intros H; rewrite H; reflexivity.
Qed.

(** X12: for every word the result names the input as infinitive and is of
    one of three shapes: nothing at all (no form, no participle, no
    word created), six auxiliary forms from the tables with their
    participle (no word created), or five generated verb forms with a
    generated participle (six words created).  Forms and participle
    come together or not at all. *)
Theorem getVerbForms_shape (w : Word) (n : nat) :
  let vf := fst (getVerbForms random w n) in
  let n' := snd (getVerbForms random w n) in
  inf vf = w /\
  ((pp vf = None /\ conjugations vf = [] /\ n' = n) \/
   (exists p, pp vf = Some p /\ w_type p = VERB_PP /\
      length (conjugations vf) = 6%nat /\
      Forall (fun c => w_type c = VERB_AUX) (conjugations vf) /\ n' = n) \/
   (exists p, pp vf = Some p /\ w_type p = VERB_PP /\
      length (conjugations vf) = 5%nat /\
      Forall (fun c => w_type c = VERB) (conjugations vf) /\
      n' = (n + 6)%nat)).
Proof.
  cbv zeta. destruct (getVerbForms_tables w n) as (Havoir & Hetre & Haller).
  destruct (decide (w_text w = js "avoir")) as [Ea|Ea].
  { rewrite (Havoir Ea). cbn [fst snd inf pp conjugations].
    split; [reflexivity|]. right; left. exists (avoirParticiple random).
    split; [reflexivity|]. split; [reflexivity|]. split; [reflexivity|].
    split; [|reflexivity]. unfold avoirForms.
    repeat (apply Forall_cons; split; [reflexivity|]). apply Forall_nil_2. }
  destruct (decide (w_text w = js "être")) as [Ee|Ee].
  { rewrite (Hetre Ee). cbn [fst snd inf pp conjugations].
    split; [reflexivity|]. right; left. exists (etreParticiple random).
    split; [reflexivity|]. split; [reflexivity|]. split; [reflexivity|].
    split; [|reflexivity]. unfold etreForms.
    repeat (apply Forall_cons; split; [reflexivity|]). apply Forall_nil_2. }
  destruct (decide (w_text w = js "aller")) as [El|El].
  { rewrite (Haller El). cbn [fst snd inf pp conjugations].
    split; [reflexivity|]. right; left. exists (allerParticiple random).
    split; [reflexivity|]. split; [reflexivity|]. split; [reflexivity|].
    split; [|reflexivity]. unfold allerForms.
    repeat (apply Forall_cons; split; [reflexivity|]). apply Forall_nil_2. }
  unfold getVerbForms. rewrite !bool_decide_eq_false_2 by done.
  destruct (endsWith (w_text w) (js "er")) eqn:Eer.
  - cbn [orb]. split; [reflexivity|]. right; right. eexists.
    split; [reflexivity|]. split; [reflexivity|]. split; [reflexivity|].
    split; [|simpl; lia].
    repeat (apply Forall_cons; split; [reflexivity|]). apply Forall_nil_2.
  - cbn [orb].
    destruct (endsWith (w_text w) (js "ir") || endsWith (w_text w) (js "re"));
      (split; [reflexivity|]; left; by repeat split).
Qed.

(** [replace('to ', '')] takes back the "to " the game screen put in
    front. *)
Lemma replaceFirst_prefix (pat rep s : jsstring) :
  replaceFirst pat rep (pat ++ s) = rep ++ s.
Proof.
  assert (startsWith (pat ++ s) pat = true) as H
    by (apply startsWith_true; by exists s).
  destruct (pat ++ s) as [|c r] eqn:E; simpl; rewrite H.
  - apply app_eq_nil in E as [-> ->]. reflexivity.
  - rewrite <- E. by rewrite drop_app_length.
Qed.

(** X13: a verb of a custom word pack is conjugated whatever the case of its
    text in the pack, the game screen having lower-cased it: a text
    that lower-cases to "avoir", "être" or "aller" gets that verb's
    table paradigm, and a text that lower-cases to an "-er" verb other
    than "aller" gets five forms whose translations are the pack's
    translation followed by the persons. *)
Theorem packVerbWord_conjugation (v : PackEntry) (k n : nat) :
  let w := fst (packVerbWord random v k) in
  (toLowerCase (pe_text v) = js "avoir" ->
   getVerbForms random w n =
     ({| inf := w; pp := Some (avoirParticiple random);
         conjugations := avoirForms random |}, n)) /\
  (toLowerCase (pe_text v) = js "être" ->
   getVerbForms random w n =
     ({| inf := w; pp := Some (etreParticiple random);
         conjugations := etreForms random |}, n)) /\
  (toLowerCase (pe_text v) = js "aller" ->
   getVerbForms random w n =
     ({| inf := w; pp := Some (allerParticiple random);
         conjugations := allerForms random |}, n)) /\
  (endsWith (toLowerCase (pe_text v)) (js "er") = true ->
   toLowerCase (pe_text v) <> js "aller" ->
   map w_translation (conjugations (fst (getVerbForms random w n)))
   = [pe_translation v ++ js " (Je/Il)"; pe_translation v ++ js " (Tu)";
      pe_translation v ++ js " (Nous)"; pe_translation v ++ js " (Vous)";
      pe_translation v ++ js " (Ils/Elles)"]).
Proof.
  cbv zeta.
  destruct (getVerbForms_tables (fst (packVerbWord random v k)) n)
    as (Havoir & Hetre & Haller).
  split; [|split; [|split]].
  - intros H. apply Havoir. exact H.
  - intros H. apply Hetre. exact H.
  - intros H. apply Haller. exact H.
  - clear Havoir Hetre Haller. unfold packVerbWord, createWord. cbn [fst].
    intros Her Hne. unfold getVerbForms. cbn [w_text w_translation].
    rewrite (bool_decide_eq_false_2 (_ = js "avoir")).
    2:{ intros E. rewrite E in Her. discriminate. }
    rewrite (bool_decide_eq_false_2 (_ = js "être")).
    2:{ intros E. rewrite E in Her. discriminate. }
    rewrite (bool_decide_eq_false_2 (_ = js "aller")) by done.
    rewrite Her. cbn [orb].
    rewrite (replaceFirst_prefix (js "to ") [] (pe_translation v)).
    reflexivity.
Qed.

End ConjugatorShape.

Lemma packVerbWord_conjugation_witness :
  (endsWith (toLowerCase (pe_text packVerbDanser)) (js "er") = true /\
   toLowerCase (pe_text packVerbDanser) <> js "aller") /\
  map w_translation
    (conjugations
       (fst (getVerbForms fixedRandom
               (fst (packVerbWord fixedRandom packVerbDanser 0%nat)) 1%nat)))
  = [js "dance (Je/Il)"; js "dance (Tu)"; js "dance (Nous)";
     js "dance (Vous)"; js "dance (Ils/Elles)"].
Proof.
  split; [split; vm_compute; congruence|].
  apply (packVerbWord_conjugation fixedRandom packVerbDanser 0 1);
    vm_compute; congruence.
Defined.

(** * Properties of the game screen *)

(** ** Reordering by drag and drop *)

Section Splice.

Context {A : Type}.

(** Putting an item in at an index and taking it out again. *)
Lemma splice_in_out (rest : list A) (t : nat) (x : A) :
  (t <= length rest)%nat ->
  (take t rest ++ x :: drop t rest) !! t = Some x /\
  take t (take t rest ++ x :: drop t rest)
  ++ drop (S t) (take t rest ++ x :: drop t rest) = rest.
Proof.
  intros Ht.
  assert (length (take t rest) = t) as Hlen by (rewrite length_take; lia).
  split.
  - apply list_lookup_middle. by rewrite Hlen.
  - rewrite take_app_length' by done.
    rewrite drop_app_ge by lia. rewrite Hlen.
    replace (S t - t)%nat with 1%nat by lia. simpl. rewrite drop_0.
    apply take_drop.
Qed.

(** Taking the item at an index out and putting it in again. *)
Lemma splice_out_in (l : list A) (d : nat) (x : A) :
  l !! d = Some x ->
  take d (take d l ++ drop (S d) l) ++ x :: drop d (take d l ++ drop (S d) l)
  = l.
Proof.
  intros Hx. pose proof (lookup_lt_Some _ _ _ Hx) as Hlt.
  assert (length (take d l) = d) as Hlen by (rewrite length_take; lia).
  rewrite take_app_length' by done.
  rewrite drop_app_ge by lia. rewrite Hlen, Nat.sub_diag, drop_0.
  by apply take_drop_middle.
Qed.

End Splice.

Lemma moveSlot_inv (dragged targetIndex : nat) (l new : list SentenceSlot) :
  moveSlot dragged targetIndex l = Some new ->
  exists item,
    l !! dragged = Some item /\
    new = take targetIndex (take dragged l ++ drop (S dragged) l)
          ++ item :: drop targetIndex (take dragged l ++ drop (S dragged) l).
Proof.
  unfold moveSlot. destruct (l !! dragged) as [item|]; [|discriminate].
  intros [= <-]. by exists item.
Qed.

(** X14: a drop that goes through reorders the board and nothing else: the
    new slots are a permutation of the old ones, and the dragged slot
    sits at the target index, or at the end when the target lies
    beyond. *)
Theorem handleDrop_permutation (targetIndex dragged : nat) (st st' : Screen) :
  draggedSlotIndex st = Some dragged -> dragged <> targetIndex ->
  mergingIndex st = None ->
  handleDrop targetIndex st = Some st' ->
  slots st' ≡ₚ slots st /\
  length (slots st') = length (slots st) /\
  slots st' !! (targetIndex `min` (length (slots st) - 1))%nat
  = slots st !! dragged /\
  draggedSlotIndex st' = None.
Proof.
  intros Hd Hne Hm. unfold handleDrop. rewrite Hd, Hm.
  rewrite bool_decide_eq_false_2 by done.
  rewrite (bool_decide_eq_false_2 (is_Some None)) by (by intros [? ?]).
  cbn [orb].
  destruct (moveSlot dragged targetIndex (slots st)) as [new|] eqn:E;
    [|discriminate].
  intros [= <-]. destruct st as [g sl a ad pc cw cg cn v mi pe ac qh di].
  cbn in *.
  apply moveSlot_inv in E as (item & Hitem & ->).
  set (rest := take dragged sl ++ drop (S dragged) sl).
  pose proof (lookup_lt_Some _ _ _ Hitem) as Hlt.
  assert (length sl = S (length rest)) as Hls.
  { subst rest. rewrite length_app, length_take, length_drop. lia. }
  assert (take targetIndex rest ++ item :: drop targetIndex rest ≡ₚ sl)
    as Hperm.
  { rewrite <- Permutation_middle, take_drop. subst rest.
    rewrite <- (take_drop_middle sl dragged item Hitem) at 3.
    by rewrite <- Permutation_middle. }
  split; [exact Hperm|]. split; [by rewrite Hperm|]. split; [|reflexivity].
  rewrite Hitem, Hls.
  replace (S (length rest) - 1)%nat with (length rest) by lia.
  apply list_lookup_middle. by rewrite length_take.
Qed.

(** X15: dragging a slot to another index of the board and back restores the
    board. *)
Theorem moveSlot_round_trip (dragged targetIndex : nat)
    (l new : list SentenceSlot) :
  (targetIndex < length l)%nat ->
  moveSlot dragged targetIndex l = Some new ->
  moveSlot targetIndex dragged new = Some l.
Proof.
  intros Ht H. apply moveSlot_inv in H as (item & Hitem & ->).
  set (rest := take dragged l ++ drop (S dragged) l).
  pose proof (lookup_lt_Some _ _ _ Hitem) as Hlt.
  assert (length l = S (length rest)) as Hls.
  { subst rest. rewrite length_app, length_take, length_drop. lia. }
  destruct (splice_in_out rest targetIndex item ltac:(lia)) as [Hat Hout].
  unfold moveSlot. rewrite Hat, Hout. f_equal.
  by apply splice_out_in.
Qed.

Lemma handleDrop_permutation_witness :
  (draggedSlotIndex sampleDragScreen = Some 0%nat /\ 0%nat <> 2%nat /\
   mergingIndex sampleDragScreen = None /\
   handleDrop 2 sampleDragScreen = Some sampleDropped) /\
  slots sampleDropped ≡ₚ slots sampleDragScreen /\
  length (slots sampleDropped) = length (slots sampleDragScreen) /\
  slots sampleDropped !! (2 `min` (length (slots sampleDragScreen) - 1))%nat
  = slots sampleDragScreen !! 0%nat /\
  draggedSlotIndex sampleDropped = None.
Proof.
  split; [repeat split; (vm_compute; reflexivity) || lia|].
  apply (handleDrop_permutation 2 0 sampleDragScreen sampleDropped);
    (vm_compute; reflexivity) || lia.
Defined.

Lemma moveSlot_round_trip_witness :
  ((2 < length scenarioSlots)%nat /\
   moveSlot 0 2 scenarioSlots = Some (slots sampleDropped)) /\
  moveSlot 2 0 (slots sampleDropped) = Some scenarioSlots.
Proof.
  split; [split; [vm_compute; lia|vm_compute; reflexivity]|].
  apply (moveSlot_round_trip 0 2 scenarioSlots (slots sampleDropped));
    [vm_compute; lia|vm_compute; reflexivity].
Defined.

(** ** Invariants of the board *)

Section MachineInvariants.

Variable mode : GameMode.
Variable wordPool : list Word.
Variable random : nat -> jsstring.
Variable randomFloor : nat -> nat -> nat.
Variable dateNow : nat -> jsstring.









End MachineInvariants.


(** ** Score, clock and question history *)

Section MachineProgress.

Variable mode : GameMode.
Variable wordPool : list Word.
Variable random : nat -> jsstring.
Variable randomFloor : nat -> nat -> nat.
Variable dateNow : nat -> jsstring.






End MachineProgress.

(** ** The Blitz clock *)

(** X19: from a clock of [t] seconds, [t] at least one, the game is over
    after exactly [t] ticks: the clock counts down by one and the game
    is still on before that, and the last tick stops it at zero; the
    score is left alone. *)
Theorem tick_countdown (g : GameState) (k : nat) :
  (1 <= timeLeft g)%Z -> isGameOver g = false ->
  let g' := Nat.iter k tick g in
  score g' = score g /\
  ((k < Z.to_nat (timeLeft g))%nat ->
   timeLeft g' = (timeLeft g - Z.of_nat k)%Z /\ isGameOver g' = false) /\
  ((Z.to_nat (timeLeft g) <= k)%nat ->
   timeLeft g' = 0%Z /\ isGameOver g' = true /\ isPlaying g' = false).
Proof.
  intros Ht Ho. cbv zeta. induction k as [|k (Hs & Hlt & Hge)].
  - cbn. split; [reflexivity|]. split; [intros _; split; [lia|exact Ho]|lia].
  - change (Nat.iter (S k) tick g) with (tick (Nat.iter k tick g)).
    set (gk := Nat.iter k tick g) in *. unfold tick.
    destruct (Nat.lt_ge_cases k (Z.to_nat (timeLeft g))) as [Hk|Hk].
    + destruct (Hlt Hk) as [Htl Hov].
      destruct (Z.leb_spec (timeLeft gk) 1); cbn.
      * split; [exact Hs|]. split; [lia|]. by intros _.
      * split; [exact Hs|]. split; [|lia]. intros _. split; [lia|exact Hov].
    + destruct (Hge Hk) as (Htl & Hov & Hpl).
      destruct (Z.leb_spec (timeLeft gk) 1); [|lia]. cbn.
      split; [exact Hs|]. split; [lia|]. by intros _.
Qed.



Lemma tick_countdown_witness :
  ((1 <= timeLeft (gameState initialScreen))%Z /\
   isGameOver (gameState initialScreen) = false) /\
  timeLeft (Nat.iter 60 tick (gameState initialScreen)) = 0%Z /\
  isGameOver (Nat.iter 60 tick (gameState initialScreen)) = true /\
  isPlaying (Nat.iter 60 tick (gameState initialScreen)) = false.
Proof.
  split; [split; [vm_compute; discriminate|reflexivity]|].
  destruct (tick_countdown (gameState initialScreen) 60) as (_ & _ & H);
    [vm_compute; discriminate|reflexivity|].
  apply H. vm_compute. lia.
Defined.

Example sample_session_runs :
  (fun m => (map (fun s => w_text <$> s_value s) (slots (screen m)),
             score (gameState (screen m)),
             timeLeft (gameState (screen m)),
             questionHistory (screen m))) <$> sampleMachine
  = Some ([Some (js "J'ai")], 10%Z, 70%Z, [js "Et toi ?"]).
Proof. vm_compute. reflexivity. Qed.
(** ** The word picker *)

Section ArraySortFacts.

Context {A : Type}.
Variable compareFn : A -> A -> Z.

Lemma sortInsert_perm (x : A) (l : list A) :
  sortInsert compareFn x l ≡ₚ x :: l.
Proof.
  induction l as [|y l IH]; [done|]. cbn.
  destruct (compareFn x y <=? 0)%Z; [done|].
  rewrite IH. apply Permutation_swap.
Qed.

Lemma arraySort_perm (l : list A) : arraySort compareFn l ≡ₚ l.
Proof.
  induction l as [|x l IH]; [done|]. cbn. by rewrite sortInsert_perm, IH.
Qed.

Hypothesis compareFn_total :
  forall a b, (0 < compareFn a b)%Z -> (compareFn b a <= 0)%Z.
Hypothesis compareFn_trans :
  forall a b c,
    (compareFn a b <= 0)%Z -> (compareFn b c <= 0)%Z ->
    (compareFn a c <= 0)%Z.

Lemma sortInsert_sorted (x : A) (l : list A) :
  StronglySorted (fun a b => (compareFn a b <= 0)%Z) l ->
  StronglySorted (fun a b => (compareFn a b <= 0)%Z)
    (sortInsert compareFn x l).
Proof.
  induction 1 as [|y l Hl IH Hy]; cbn; [by repeat constructor|].
  destruct (Z.leb_spec (compareFn x y) 0) as [Hle|Hgt].
  - constructor; [by constructor|]. constructor; [exact Hle|].
    eapply Forall_impl; [exact Hy|]. intros z Hz. by eapply compareFn_trans.
  - constructor; [exact IH|]. rewrite sortInsert_perm.
    constructor; [by apply compareFn_total|exact Hy].
Qed.

Lemma arraySort_sorted (l : list A) :
  StronglySorted (fun a b => (compareFn a b <= 0)%Z) (arraySort compareFn l).
Proof.
  induction l as [|x l IH]; cbn; [constructor|by apply sortInsert_sorted].
Qed.

Lemma arraySort_pairs (l : list A) (i j : nat) (a b : A) :
  (i < j)%nat ->
  arraySort compareFn l !! i = Some a -> arraySort compareFn l !! j = Some b ->
  (compareFn a b <= 0)%Z.
Proof.
  generalize (arraySort_sorted l). generalize (arraySort compareFn l).
  intros s Hs. revert i j. induction Hs as [|y s Hs IH Hy]; intros i j Hij.
  - by rewrite lookup_nil.
  - destruct j as [|j]; [lia|]. destruct i as [|i]; cbn.
    + intros [= ->] Hb. rewrite Forall_forall in Hy. apply Hy.
      by eapply list_elem_of_lookup_2.
    + apply IH. lia.
Qed.

End ArraySortFacts.

Lemma auxRank_range (w : Word) : (-1 <= auxRank w <= 2)%Z.
Proof.
  unfold auxRank, indexOf, priority. generalize (toLowerCase (w_text w)).
  intros t. cbn [indexOfFrom]. repeat case_bool_decide; lia.
Qed.

Lemma compareUnits_total (a b : jsstring) :
  (0 < compareUnits a b)%Z -> (compareUnits b a <= 0)%Z.
Proof.
  revert b. induction a as [|x a IH]; intros [|y b]; cbn; try lia.
  destruct (N.ltb_spec x y), (N.ltb_spec y x); try lia. apply IH.
Qed.

Lemma compareUnits_trans (a b c : jsstring) :
  (compareUnits a b <= 0)%Z -> (compareUnits b c <= 0)%Z ->
  (compareUnits a c <= 0)%Z.
Proof.
  revert b c. induction a as [|x a IH]; intros [|y b] [|z c]; cbn; try lia.
  destruct (N.ltb_spec x y), (N.ltb_spec y x), (N.ltb_spec y z),
    (N.ltb_spec z y), (N.ltb_spec x z), (N.ltb_spec z x); try lia.
  apply IH.
Qed.

Section PickerFacts.

Variable localeCompare : jsstring -> jsstring -> Z.
Variable wordPool : list Word.

Lemma getFilteredWords_perm (cat : PartOfSpeech) :
  getFilteredWords localeCompare wordPool cat
  ≡ₚ List.filter
       (fun w => bool_decide
                   (w_type w = if bool_decide (cat = VERB)
                               then VERB_INF else cat))
       wordPool.
Proof.
  unfold getFilteredWords. case_bool_decide; apply arraySort_perm.
Qed.

Hypothesis localeCompare_total :
  forall a b, (0 < localeCompare a b)%Z -> (localeCompare b a <= 0)%Z.
Hypothesis localeCompare_trans :
  forall a b c,
    (localeCompare a b <= 0)%Z -> (localeCompare b c <= 0)%Z ->
    (localeCompare a c <= 0)%Z.

Lemma verbOrder_cases (a b : Word) :
  (verbOrder localeCompare a b <= 0)%Z <->
  (auxRank a <> (-1)%Z /\ auxRank b <> (-1)%Z /\ (auxRank a <= auxRank b)%Z) \/
  (auxRank a <> (-1)%Z /\ auxRank b = (-1)%Z) \/
  (auxRank a = (-1)%Z /\ auxRank b = (-1)%Z /\
   (localeCompare (w_text a) (w_text b) <= 0)%Z).
Proof.
  unfold verbOrder. fold (auxRank a) (auxRank b). cbv zeta.
  destruct (Z.eqb_spec (auxRank a) (-1)), (Z.eqb_spec (auxRank b) (-1));
    cbn [negb andb]; split; intros H; lia.
Qed.

Lemma verbOrder_total (a b : Word) :
  (0 < verbOrder localeCompare a b)%Z -> (verbOrder localeCompare b a <= 0)%Z.
Proof.
  intros H. apply verbOrder_cases.
  destruct (Z.le_gt_cases (verbOrder localeCompare a b) 0) as [Hle|_]; [lia|].
  assert (~ (verbOrder localeCompare a b <= 0)%Z) as Hn by lia.
  rewrite verbOrder_cases in Hn.
  destruct (decide (auxRank a = (-1)%Z)) as [Ea|Ea],
           (decide (auxRank b = (-1)%Z)) as [Eb|Eb].
  - right; right. repeat split; try done.
    apply localeCompare_total.
    destruct (Z.le_gt_cases (localeCompare (w_text a) (w_text b)) 0); [|lia].
    exfalso. apply Hn. right; right. by repeat split.
  - right; left. by split.
  - exfalso. apply Hn. right; left. by split.
  - left. repeat split; try done.
    destruct (Z.le_gt_cases (auxRank a) (auxRank b)); [|lia].
    exfalso. apply Hn. left. by repeat split.
Qed.

Lemma verbOrder_trans (a b c : Word) :
  (verbOrder localeCompare a b <= 0)%Z ->
  (verbOrder localeCompare b c <= 0)%Z ->
  (verbOrder localeCompare a c <= 0)%Z.
Proof.
  rewrite !verbOrder_cases.
  intros [(? & ? & ?)|[(? & ?)|(? & ? & ?)]] [(? & ? & ?)|[(? & ?)|(? & ? & ?)]];
    try lia.
  all: first
    [ left; repeat split; first [done|lia]
    | right; left; split; first [done|lia]
    | right; right; repeat split; try done; by eapply localeCompare_trans ].
Qed.

(** X20: the picker lists the words of the pool that have the category's
    type, each as often as the pool holds it, infinitives under the
    category of verbs.  With a locale whose comparison is a total
    preorder the list is in order: under the verbs the auxiliaries come
    first, "avoir" before "être" before "aller" whatever their case,
    and the other infinitives follow in the order of the locale; every
    other category is in the order of the locale. *)
Theorem getFilteredWords_order (cat : PartOfSpeech) :
  let res := getFilteredWords localeCompare wordPool cat in
  res ≡ₚ List.filter
           (fun w => bool_decide
                       (w_type w = if bool_decide (cat = VERB)
                                   then VERB_INF else cat))
           wordPool /\
  forall i j a b,
    (i < j)%nat -> res !! i = Some a -> res !! j = Some b ->
    if bool_decide (cat = VERB) then
      (auxRank b <> (-1)%Z ->
       auxRank a <> (-1)%Z /\ (auxRank a <= auxRank b)%Z) /\
      (auxRank a = (-1)%Z ->
       auxRank b = (-1)%Z /\
       (localeCompare (w_text a) (w_text b) <= 0)%Z)
    else (localeCompare (w_text a) (w_text b) <= 0)%Z.
Proof.
  cbv zeta. split; [apply getFilteredWords_perm|].
  intros i j a b Hij Ha Hb. unfold getFilteredWords in Ha, Hb.
  case_bool_decide as Hcat.
  - pose proof (arraySort_pairs (verbOrder localeCompare) verbOrder_total
                  verbOrder_trans _ i j a b Hij Ha Hb) as H.
    apply verbOrder_cases in H. split; intros; lia.
  - apply (arraySort_pairs
             (fun a b => localeCompare (w_text a) (w_text b))
             (fun a b => localeCompare_total (w_text a) (w_text b))
             (fun a b c => localeCompare_trans (w_text a) (w_text b) (w_text c))
             _ i j a b Hij Ha Hb).
Qed.

End PickerFacts.

Lemma getFilteredWords_order_witness :
  (forall a b, (0 < compareUnits a b)%Z -> (compareUnits b a <= 0)%Z) /\
  (forall a b c, (compareUnits a b <= 0)%Z -> (compareUnits b c <= 0)%Z ->
                 (compareUnits a c <= 0)%Z) /\
  getFilteredWords compareUnits samplePool VERB
  ≡ₚ [wordDanser; wordEtre; wordChanter; wordAvoir] /\
  getFilteredWords compareUnits samplePool VERB !! 1%nat = Some wordEtre /\
  getFilteredWords compareUnits samplePool VERB !! 2%nat = Some wordChanter /\
  ((auxRank wordChanter <> (-1)%Z ->
    auxRank wordEtre <> (-1)%Z /\
    (auxRank wordEtre <= auxRank wordChanter)%Z) /\
   (auxRank wordEtre = (-1)%Z ->
    auxRank wordChanter = (-1)%Z /\
    (compareUnits (w_text wordEtre) (w_text wordChanter) <= 0)%Z)).
Proof.
  split; [exact compareUnits_total|]. split; [exact compareUnits_trans|].
  destruct (getFilteredWords_order compareUnits samplePool
              compareUnits_total compareUnits_trans VERB) as [Hp Ho].
  split; [exact Hp|].
  split; [vm_compute; reflexivity|]. split; [vm_compute; reflexivity|].
  apply (Ho 1%nat 2%nat wordEtre wordChanter);
    [lia|vm_compute; reflexivity|vm_compute; reflexivity].
Defined.

(** The verbs of a pool in the picker: the auxiliaries first, though
    the pool spells one of them with a capital. *)
Example picker_verbs_listed :
  getFilteredWords compareUnits samplePool VERB
  = [wordAvoir; wordEtre; wordChanter; wordDanser].
Proof. vm_compute. reflexivity. Qed.

Section MachinePicker.

Variable mode : GameMode.
Variable wordPool : list Word.
Variable random : nat -> jsstring.
Variable randomFloor : nat -> nat -> nat.
Variable dateNow : nat -> jsstring.
Variable localeCompare : jsstring -> jsstring -> Z.




End MachinePicker.


(** ** The judge *)

Section JudgeFacts.

Variable apiKey : option jsstring.
Variable mode : GameMode.

(** X22: when the request to the judge fails, the result shown is a
    rejection that repeats the sentence sent, and the check costs and
    wins nothing: score, count, clock, board, challenges and history
    stay as they were. *)
Theorem judge_failure_costs_nothing (st : Screen) :
  truthy apiKey = true -> slots st <> [] ->
  let st' := checkSentence apiKey mode None st in
  (exists r, validation st' = Some r /\ isValid r = false /\
             correction r = sentenceStr (slots st) /\
             followUpQuestion r = None) /\
  gameState st' = gameState st /\ slots st' = slots st /\
  pendingChallenge st' = pendingChallenge st /\
  activeChallenge st' = activeChallenge st /\
  questionHistory st' = questionHistory st.
Proof.
  intros Hkey Hne. cbv zeta. unfold checkSentence, validateSentence.
  rewrite Hkey. cbn [negb]. unfold handleCheckSentence.
  rewrite bool_decide_eq_false_2 by (by destruct (slots st)).
  cbn [isValid]. generalize (sentenceStr (slots st)). intros sentence.
  destruct st as [g sl a ad pc cw cg cn v mi pe ac qh di]. cbn -[js].
  split; [|by repeat split]. eexists. by repeat split.
Qed.

(** X23: without an API key every sentence on a board that is not empty is
    accepted, whatever it says: the check always scores, and every
    check proposes the same follow-up question and puts it into the
    history once more. *)
Theorem demo_mode_accepts_everything (reply : option ValidationResult)
    (st : Screen) :
  truthy apiKey = false -> slots st <> [] ->
  let st' := checkSentence apiKey mode reply st in
  let question := js "Et toi, Ã§a va ?" in
  (exists r, validation st' = Some r /\ isValid r = true /\
             correction r = sentenceStr (slots st)) /\
  (score (gameState st) + 10 <= score (gameState st'))%Z /\
  sentencesCompleted (gameState st')
  = (sentencesCompleted (gameState st) + 1)%Z /\
  pendingChallenge st' = Some question /\
  last (questionHistory st') = Some question /\
  (length (questionHistory st') <= 10)%nat.
Proof.
  intros Hkey Hne. cbv zeta. unfold checkSentence, validateSentence.
  rewrite Hkey. cbn [negb]. unfold handleCheckSentence.
  rewrite bool_decide_eq_false_2 by (by destruct (slots st)).
  cbn [isValid followUpQuestion].
  change (truthy (Some (js "Et toi, Ã§a va ?"))) with true. cbv iota.
  generalize (sentenceStr (slots st)). intros sentence.
  destruct st as [g sl a ad pc cw cg cn v mi pe ac qh di]. cbn -[js].
  split; [eexists; by repeat split|].
  split; [repeat case_match; lia|]. split; [done|]. split; [done|].
  split; [apply last_snoc|].
  rewrite length_app, length_drop. cbn. lia.
Qed.

End JudgeFacts.

Lemma judge_failure_costs_nothing_witness :
  truthy (Some (js "key")) = true /\ slots (screen sampleBoard) <> [] /\
  gameState (checkSentence (Some (js "key")) BLITZ None (screen sampleBoard))
  = gameState (screen sampleBoard).
Proof.
  split; [reflexivity|]. split; [discriminate|].
  apply (judge_failure_costs_nothing (Some (js "key")) BLITZ
           (screen sampleBoard)); [reflexivity|discriminate].
Defined.

Lemma demo_mode_accepts_everything_witness :
  truthy None = false /\ slots (screen sampleBoard) <> [] /\
  pendingChallenge (checkSentence None BLITZ None (screen sampleBoard))
  = Some (js "Et toi, Ã§a va ?").
Proof.
  split; [reflexivity|]. split; [discriminate|].
  apply (demo_mode_accepts_everything None BLITZ None (screen sampleBoard));
    [reflexivity|discriminate].
Defined.
